(** * The uWebSockets adapter of Hattip: request dispatch and response writing

    A shallow embedding of
    [packages/adapter/adapter-uwebsockets/src/common.ts]:
    [createServer], the per-request callback registered with [app.any],
    its nested functions [getForwardedHeader], [handleError] and [finish],
    and [ipAddressBytesToString].

    Strings are strings of 8-bit code units (header names and values are
    byte strings in the Fetch standard).  Platform objects the adapter only
    uses ([Headers], [ReadableStream], the uWebSockets response) are modelled
    by the operations the adapter calls on them. *)

From Stdlib Require Import NArith Ascii String Strings.Byte DecimalString HexadecimalString Lia.
From stdpp Require Import base decidable option list strings.

Local Open Scope string_scope.
Local Open Scope list_scope.

(** ** JavaScript primitives used by the adapter *)

Module JS.

(** [!!s] for a string: every string but the empty one is truthy. *)
Definition truthy (s : string) : bool :=
  match s with
  | EmptyString => false
  | String _ _ => true
  end.

(** [a || b] where [a] is a string or [undefined] and [b] a string. *)
Definition or_else (a : option string) (b : string) : string :=
  match a with
  | Some s => if truthy s then s else b
  | None => b
  end.

(** [flag && s]: [false] (modelled by [None]) or the string. *)
Definition and_then (flag : bool) (s : string) : option string :=
  if flag then Some s else None.

(** [s.split(",", 1)[0]]: the text before the first comma. *)
Fixpoint before_comma (s : string) : string :=
  match s with
  | EmptyString => EmptyString
  | String c rest =>
      if Ascii.eqb c ","%char then EmptyString else String c (before_comma rest)
  end.

(** White space of [String.prototype.trim] among 8-bit code units:
    TAB, LF, VT, FF, CR, SPACE and NBSP. *)
Definition is_white_space (c : ascii) : bool :=
  let n := N_of_ascii c in
  ((9 <=? n) && (n <=? 13) || (n =? 32) || (n =? 160))%N.

Fixpoint drop_while (p : ascii -> bool) (s : string) : string :=
  match s with
  | EmptyString => EmptyString
  | String c rest => if p c then drop_while p rest else s
  end.

(** Drops the longest suffix whose characters satisfy [p]. *)
Fixpoint drop_end_while (p : ascii -> bool) (s : string) : string :=
  match s with
  | EmptyString => EmptyString
  | String c rest =>
      match drop_end_while p rest with
      | EmptyString => if p c then EmptyString else String c EmptyString
      | kept => String c kept
      end
  end.

Definition trim (s : string) : string :=
  drop_end_while is_white_space (drop_while is_white_space s).

(** [s.slice(0, -1)]: all but the last character. *)
Fixpoint slice_0_m1 (s : string) : string :=
  match s with
  | EmptyString => EmptyString
  | String _ EmptyString => EmptyString
  | String c rest => String c (slice_0_m1 rest)
  end.

(** [String(n)] and [n.toString(16)] for a non-negative integer. *)
Definition toString (n : N) : string :=
  DecimalString.NilZero.string_of_uint (N.to_uint n).

Definition toString16 (n : N) : string :=
  HexadecimalString.NilZero.string_of_uint (N.to_hex_uint n).

(** [Array.prototype.join]. *)
Definition join (sep : string) (parts : list string) : string :=
  String.concat sep parts.

(** Byte-lowercasing of header names. *)
Definition lower_char (c : ascii) : ascii :=
  let n := N_of_ascii c in
  if ((65 <=? n) && (n <=? 90))%N then ascii_of_N (n + 32) else c.

Fixpoint toLowerCase (s : string) : string :=
  match s with
  | EmptyString => EmptyString
  | String c rest => String (lower_char c) (toLowerCase rest)
  end.

End JS.

(** ** The [Headers] class of the Fetch standard

    A header list is kept in insertion order with lower-cased names and
    values stripped of leading and trailing HTTP white space, as [append]
    stores them.  Names and values are taken to be valid, so that [append]
    does not throw. *)

Module Headers.

Abbreviation t := (list (string * string)).

Definition empty : t := [].

Definition is_http_white_space (c : ascii) : bool :=
  let n := N_of_ascii c in
  ((n =? 9) || (n =? 10) || (n =? 13) || (n =? 32))%N.

Definition normalize (v : string) : string :=
  JS.drop_end_while is_http_white_space
    (JS.drop_while is_http_white_space v).

(** An entry as [append] stores it. *)
Definition stored (kv : string * string) : string * string :=
  (JS.toLowerCase (fst kv), normalize (snd kv)).

Definition append (name value : string) (h : t) : t :=
  h ++ [stored (name, value)].

(** [new Headers(init)] for a sequence of name/value pairs, and the
    effect of [req.forEach((key, value) => headers.append(key, value))]. *)
Definition of_entries (init : list (string * string)) : t :=
  fold_left (fun h kv => append (fst kv) (snd kv) h) init empty.

(** The values stored under [name], in insertion order. *)
Definition values (name : string) (h : t) : list string :=
  map snd (filter (fun kv => fst kv = JS.toLowerCase name) h).

(** [headers.get(name)]: [null] when absent, otherwise the values joined
    with a comma and a space. *)
Definition get (name : string) (h : t) : option string :=
  match values name h with
  | [] => None
  | vs => Some (JS.join ", " vs)
  end.

Definition getSetCookie (h : t) : list string := values "set-cookie" h.

(** Insertion sort on names, in code-unit order. *)
Fixpoint insert_sorted (x : string) (l : list string) : list string :=
  match l with
  | [] => [x]
  | y :: rest =>
      if String.leb x y then x :: l else y :: insert_sorted x rest
  end.

Definition sort (l : list string) : list string :=
  foldr insert_sorted [] l.

(** [headers.keys()]: the names of "sort and combine".  Every name comes
    once, except [set-cookie], which comes once for each of its values. *)
Fixpoint combine_names (sorted : list string) : list string :=
  match sorted with
  | [] => []
  | x :: rest =>
      match rest with
      | y :: _ =>
          if decide (x = y) then
            if decide (x = "set-cookie") then x :: combine_names rest
            else combine_names rest
          else x :: combine_names rest
      | [] => [x]
      end
  end.

Definition keys (h : t) : list string :=
  combine_names (sort (map fst h)).

End Headers.

(** [new Set(iterable)] followed by iteration: first occurrences, in order. *)
Fixpoint Set_of_aux (seen : list string) (l : list string) : list string :=
  match l with
  | [] => []
  | x :: rest =>
      if decide (x ∈ seen) then Set_of_aux seen rest
      else x :: Set_of_aux (x :: seen) rest
  end.

Definition Set_of (l : list string) : list string := Set_of_aux [] l.

(** ** [ipAddressBytesToString] *)

Definition byte_val (b : byte) : N := Byte.to_N b.

(** [view.getUint16(i)] and [view.getUint32(i)] (big-endian), [None] when
    out of range. *)
Definition getUint8 (view : list byte) (i : nat) : option N :=
  byte_val <$> view !! i.

Definition getUint16 (view : list byte) (i : nat) : option N :=
  hi ← getUint8 view i; lo ← getUint8 view (i + 1);
  Some (hi * 256 + lo)%N.

Definition getUint32 (view : list byte) (i : nat) : option N :=
  hi ← getUint16 view i; lo ← getUint16 view (i + 2);
  Some (hi * 65536 + lo)%N.

(** The two loops of [ipAddressBytesToString], unrolled over their index. *)
Fixpoint dotted (view : list byte) (i n : nat) : string :=
  match n with
  | O => ""
  | S n' =>
      JS.toString (default 0%N (getUint8 view i))
      +:+ (if decide (i < 3) then "." else "")
      +:+ dotted view (S i) n'
  end.

Fixpoint colon_hex (view : list byte) (i n : nat) : string :=
  match n with
  | O => ""
  | S n' =>
      JS.toString16 (default 0%N (getUint16 view i))
      +:+ (if decide (i < 14) then ":" else "")
      +:+ colon_hex view (i + 2) n'
  end.

Definition ipAddressBytesToString (bytes : list byte) : string :=
  let view :=
    if decide (length bytes = 16
               ∧ getUint32 bytes 0 = Some 0%N
               ∧ getUint32 bytes 4 = Some 0%N
               ∧ getUint32 bytes 8 = Some 65535%N)
    then drop 12 bytes else bytes in
  if decide (length view = 4) then dotted view 0 4
  else if decide (length view = 16) then colon_hex view 0 8
  else "".

(** ** [createServer]: options, environment and the closure it returns *)

Record UWebSocketAdapterOptions := {
  origin : option string;
  trustProxy : option bool;
  ssl : option bool;
  (** whether a [configureServer] callback is given *)
  configureServer : bool
}.

(** The two variables of [process.env] that [createServer] reads. *)
Record ProcessEnv := {
  ORIGIN : option string;
  TRUST_PROXY : option string
}.

(** [AppOptions] of uWebSockets.js; any object is truthy. *)
Record AppOptions := {
  key_file_name : string;
  cert_file_name : string
}.

(** Calls [createServer] makes on the uWebSockets.js module and app. *)
Inductive app_call :=
| Call_SSLApp (o : AppOptions)
| Call_App (o : option AppOptions)
| Call_configureServer
| Call_any (pattern : string).

(** What [createServer] can throw. *)
Inductive exn :=
| TypeError_Invalid_URL
| Error (message : string).

(** The variables the request callback closes over.  [protocol] and [host]
    are declared with [let] in [createServer] and assigned in the callback. *)
Record server := {
  srv_trustProxy : bool;
  srv_ssl : bool;
  protocol : option string;
  host : option string
}.

(** [origin = process.env.ORIGIN] in the destructuring of the options: the
    option when it is given, the environment variable otherwise. *)
Definition origin_in_effect (env : ProcessEnv)
    (adapterOptions : option UWebSocketAdapterOptions) : option string :=
  match adapterOptions ≫= origin with
  | Some o => Some o
  | None => ORIGIN env
  end.

Section CreateServer.

(** [new URL(origin)]: the [protocol] and [host] fields of the parsed
    URL, or [None] when the constructor throws. *)
Variable new_URL : string → option (string * string).

Definition createServer (env : ProcessEnv)
    (adapterOptions : option UWebSocketAdapterOptions)
    (appOptions : option AppOptions) : list app_call * (exn + server) :=
  let origin' := origin_in_effect env adapterOptions in
  let trustProxy' :=
    match adapterOptions ≫= trustProxy with
    | Some b => b
    | None => bool_decide (TRUST_PROXY env = Some "1")
    end in
  let ssl' := default false (adapterOptions ≫= ssl) in
  let configureServer' :=
    match adapterOptions with
    | Some o => configureServer o
    | None => false
    end in
  let parsed :=
    if JS.truthy (default "" origin') then
      match new_URL (default "" origin') with
      | Some (p, h) => inr (Some p, Some h)
      | None => inl TypeError_Invalid_URL
      end
    else inr (None, None) in
  match parsed with
  | inl e => ([], inl e)
  | inr (protocol0, host0) =>
      let protocol1 :=
        match protocol0 with
        | Some p => if JS.truthy p then Some (JS.slice_0_m1 p) else Some p
        | None => None
        end in
      let serve create :=
        (create
           :: (if configureServer' then [Call_configureServer] else [])
           ++ [Call_any "/*"],
         inr {| srv_trustProxy := trustProxy'; srv_ssl := ssl';
                protocol := protocol1; host := host0 |})%list in
      match ssl', appOptions with
      | true, None => ([], inl (Error "SSL requires appOptions"))
      | true, Some o => serve (Call_SSLApp o)
      | false, o => serve (Call_App o)
      end
  end.

End CreateServer.

(** ** The request callback: origin resolution *)

(** What the callback reads from the native request. *)
Record HttpRequest := {
  getCaseSensitiveMethod : string;
  getUrl : string;
  getQuery : string;
  (** the pairs [req.forEach] passes to its callback, in order *)
  forEach : list (string * string)
}.

Definition getForwardedHeader (headers : Headers.t) (name : string) : string :=
  JS.trim (JS.before_comma
             (JS.or_else (Headers.get ("x-forwarded-" +:+ name) headers) "")).

(** The values the callback computes before it calls the handler. *)
Record resolved := {
  r_protocol : string;
  r_host : string;
  r_warned : bool;
  r_ip : string;
  r_url : string
}.

Definition resolve (srv : server) (req : HttpRequest)
    (remoteAddress : list byte) : resolved * server :=
  let headers := Headers.of_entries (forEach req) in
  let path := getUrl req in
  let protocol' :=
    JS.or_else (protocol srv)
      (JS.or_else
         (JS.and_then (srv_trustProxy srv) (getForwardedHeader headers "proto"))
         (JS.or_else (JS.and_then (srv_ssl srv) "https") "http")) in
  let ipAddress := ipAddressBytesToString remoteAddress in
  let host1 :=
    JS.or_else (host srv)
      (JS.or_else
         (JS.and_then (srv_trustProxy srv) (getForwardedHeader headers "host"))
         (JS.or_else (Headers.get "host" headers) ipAddress)) in
  let warned := negb (JS.truthy host1) in
  let host' := if warned then "localhost" else host1 in
  let ip :=
    JS.or_else
      (JS.and_then (srv_trustProxy srv) (getForwardedHeader headers "for"))
      (JS.or_else (Some ipAddress) "") in
  let query := getQuery req in
  let url :=
    protocol' +:+ "://" +:+ host' +:+ path
    +:+ (if JS.truthy query then "?" +:+ query else "") in
  ({| r_protocol := protocol'; r_host := host'; r_warned := warned;
      r_ip := ip; r_url := url |},
   {| srv_trustProxy := srv_trustProxy srv; srv_ssl := srv_ssl srv;
      protocol := Some protocol'; host := Some host' |}).

(** The origins resolved for a sequence of requests served one after the
    other by the same server. *)
Fixpoint resolve_all (srv : server)
    (reqs : list (HttpRequest * list byte)) : list resolved :=
  match reqs with
  | [] => []
  | (req, addr) :: rest =>
      let '(r, srv') := resolve srv req addr in
      r :: resolve_all srv' rest
  end.

(** The scheme and host resolved for a request. *)
Definition origin_of (r : resolved) : string * string :=
  (r_protocol r, r_host r).

(** The request headers other than [x-forwarded-proto] and
    [x-forwarded-host]. *)
Definition names_forwarded_origin (name : string) : bool :=
  bool_decide (JS.toLowerCase name = "x-forwarded-proto")
  || bool_decide (JS.toLowerCase name = "x-forwarded-host").

Definition without_forwarded_origin (entries : list (string * string))
    : list (string * string) :=
  filter (fun kv => ¬ names_forwarded_origin (fst kv)) entries.

(** A GET request for [/] with the given header entries. *)
Definition get_request (entries : list (string * string)) : HttpRequest :=
  {| getCaseSensitiveMethod := "GET"; getUrl := "/"; getQuery := "";
     forEach := entries |}.

(** ** The request body: a [ReadableStream] fed by [res.onData] *)

Definition Uint8Array := list byte.

Module ReadableStream.

Inductive state := readable | closed | errored.

Record t := {
  queue : list Uint8Array;
  closeRequested : bool;
  st : state
}.

Definition fresh : t :=
  {| queue := []; closeRequested := false; st := readable |}.

Definition can_close_or_enqueue (s : t) : bool :=
  negb (closeRequested s)
  && match st s with readable => true | _ => false end.

(** [controller.enqueue(chunk)]; [None] when it throws a [TypeError]. *)
Definition enqueue (chunk : Uint8Array) (s : t) : option t :=
  if can_close_or_enqueue s then
    Some {| queue := queue s ++ [chunk];
            closeRequested := closeRequested s; st := st s |}
  else None.

(** [controller.close()]: the stream closes once its queue is empty. *)
Definition close (s : t) : option t :=
  if can_close_or_enqueue s then
    match queue s with
    | [] => Some {| queue := []; closeRequested := false; st := closed |}
    | q => Some {| queue := q; closeRequested := true; st := st s |}
    end
  else None.

(** [controller.error(e)]: drops the queue and errors the stream. *)
Definition error (s : t) : t :=
  match st s with
  | readable => {| queue := []; closeRequested := false; st := errored |}
  | _ => s
  end.

(** The outcome of one [read()] of the stream's reader. *)
Inductive read_result :=
| value (chunk : Uint8Array)
| done
| rejected
| pending.

Definition read (s : t) : read_result * t :=
  match st s with
  | errored => (rejected, s)
  | closed => (done, s)
  | readable =>
      match queue s with
      | chunk :: q =>
          (value chunk,
           match q with
           | [] =>
               if closeRequested s
               then {| queue := []; closeRequested := false; st := closed |}
               else {| queue := []; closeRequested := false; st := readable |}
           | _ => {| queue := q; closeRequested := closeRequested s;
                     st := readable |}
           end)
      | [] => (pending, s)
      end
  end.

End ReadableStream.

(** ** The connection: the abort flag and what is called on [res] *)

Inductive res_call :=
| writeStatus (status : string)
| writeHeader (key value : string)
| write (chunk : Uint8Array)
| end_ (body : option Uint8Array).

(** What happens on one connection, in order. *)
Inductive event :=
| Abort                        (** the engine ran the [onAborted] callback *)
| Call (c : res_call)          (** a call on [res] outside [cork] *)
| Cork (cs : list res_call)    (** [res.cork(cb)]: the calls [cb] made *)
| Console_warn
| Console_error (e : string).

Record conn := {
  aborted : bool;
  request_body : option ReadableStream.t;
  timeline : list event
}.

Definition record (e : event) (c : conn) : conn :=
  {| aborted := aborted c; request_body := request_body c;
     timeline := timeline c ++ [e] |}.

(** [let aborted = false; res.onAborted(...)], and the [body] given to
    [new Request]: absent for GET and HEAD, a fresh stream otherwise. *)
Definition open_connection (method : string) : conn :=
  {| aborted := false;
     request_body :=
       if bool_decide (method = "GET") || bool_decide (method = "HEAD")
       then None else Some ReadableStream.fresh;
     timeline := [] |}.

(** The callback given to [res.onAborted]: [() => (aborted = true)]. *)
Definition onAborted (c : conn) : conn :=
  record Abort {| aborted := true; request_body := request_body c;
                  timeline := timeline c |}.

(** The callback given to [res.onData]: enqueue a copy of the chunk, then
    close on the last one.  When [enqueue] throws, [close] is not reached. *)
Definition onData (chunk : Uint8Array) (isLast : bool) (c : conn) : conn :=
  match request_body c with
  | None => c
  | Some s =>
      match ReadableStream.enqueue chunk s with
      | None => c
      | Some s1 =>
          let s2 :=
            if isLast then default s1 (ReadableStream.close s1) else s1 in
          {| aborted := aborted c; request_body := Some s2;
             timeline := timeline c |}
      end
  end.

(** One [read()] by the consumer of [request.body]. *)
Definition read_body (c : conn) : option ReadableStream.read_result * conn :=
  match request_body c with
  | None => (None, c)
  | Some s =>
      let '(r, s') := ReadableStream.read s in
      (Some r, {| aborted := aborted c; request_body := Some s';
                  timeline := timeline c |})
  end.

(** What can happen to the request body of an open connection. *)
Inductive body_action :=
| Data (chunk : Uint8Array) (isLast : bool)
| Aborted
| Read.

Definition is_abort (a : body_action) : bool :=
  match a with
  | Aborted => true
  | _ => false
  end.

Fixpoint run_body (acts : list body_action) (c : conn)
    : list ReadableStream.read_result * conn :=
  match acts with
  | [] => ([], c)
  | Data chunk isLast :: rest => run_body rest (onData chunk isLast c)
  | Aborted :: rest => run_body rest (onAborted c)
  | Read :: rest =>
      let '(r, c') := read_body c in
      let '(rs, c'') := run_body rest c' in
      (match r with Some x => x :: rs | None => rs end, c'')
  end.

(** The calls made on [res], and those made after the abort. *)
Definition calls_of (e : event) : list res_call :=
  match e with
  | Call c => [c]
  | Cork cs => cs
  | _ => []
  end.

Definition res_calls (tl : list event) : list res_call :=
  flat_map calls_of tl.

Fixpoint after_abort (tl : list event) : list event :=
  match tl with
  | [] => []
  | Abort :: rest => rest
  | _ :: rest => after_abort rest
  end.

(** The [writeHeader] calls made for one header name. *)
Definition header_name (c : res_call) : option string :=
  match c with
  | writeHeader key _ => Some key
  | _ => None
  end.

Definition lines_named (name : string) (cs : list res_call) : list res_call :=
  filter (fun c => header_name c = Some name) cs.

Definition is_body_call (c : res_call) : bool :=
  match c with
  | write _ | end_ _ => true
  | _ => false
  end.

Definition is_end (c : res_call) : bool :=
  match c with
  | end_ _ => true
  | _ => false
  end.

(** ** The response and the handler *)

(** A response body as the writer sees it: the chunks the stream yields,
    then either the end of the stream or an error thrown by the iteration. *)
Record Body := {
  chunks : list Uint8Array;
  failure : option string
}.

Record Response := {
  status : N;
  statusText : string;
  headers : Headers.t;
  body : option Body
}.

(** The context given to the handler.  [ctx_url], [ctx_method],
    [ctx_headers] and [ctx_has_body] are the arguments of [new Request]:
    the platform parses the URL string and [request.url] is its normalised
    form. *)
Record Context := {
  ctx_ip : string;
  ctx_platform : string;
  ctx_url : string;
  ctx_method : string;
  ctx_headers : Headers.t;
  ctx_has_body : bool
}.

(** What calling the handler gives: a response or an exception, at once or
    through a promise. *)
Inductive handler_result :=
| Returns (response : Response)
| Throws (error : string)
| Resolves (response : Response)
| Rejects (error : string).

Definition HattipHandler := Context → handler_result.

(** When the engine runs the [onAborted] callback, which it does at most
    once per connection: never while the adapter is at work, before the
    handler's result is taken up, or while the writer awaits its [k]-th
    pull from the body stream (counted from 0). *)
Inductive abort_time :=
| never
| before_response
| during_pull (k : nat).

Definition await_pull (when : abort_time) (k : nat) (c : conn) : conn :=
  match when with
  | during_pull k' => if decide (k' = k) then onAborted c else c
  | _ => c
  end.

Definition await_handler (when : abort_time) (c : conn) : conn :=
  match when with
  | before_response => onAborted c
  | _ => c
  end.

(** ** [handleError] and [finish] *)

Definition handleError (error : string) (c : conn) : conn :=
  if aborted c then c
  else
    record (Call (end_ None))
      (record (Call (writeStatus "500 Internal Server Error"))
         (record (Console_error error) c)).

Definition status_line (response : Response) : string :=
  JS.toString (status response)
  +:+ (if JS.truthy (statusText response)
       then " " +:+ statusText response else "").

(** The body of the loop over [uniqueHeaderNames]: the [writeHeader] calls
    made for one name.  A name taken from [keys()] always has a value, so
    [get] is not [null] there. *)
Definition emit_header (h : Headers.t) (name : string) : list res_call :=
  if decide (name = "set-cookie") then
    map (writeHeader name) (Headers.getSetCookie h)
  else [writeHeader name (default "" (Headers.get name h))].

Definition header_calls (h : Headers.t) : list res_call :=
  flat_map (emit_header h) (Set_of (Headers.keys h)).

(** The first [res.cork] of [finish]. *)
Definition head_calls (response : Response) : list res_call :=
  (writeStatus (status_line response)
     :: header_calls (headers response)
     ++ match body response with
        | None => [end_ None]
        | Some _ => []
        end)%list.

(** The [for await] loop of [finish] and the statement after it.  [k]
    counts the pulls; [lastChunk] is [undefined] until a chunk has come (a
    [Uint8Array], even an empty one, is truthy).  The result says whether
    the iteration threw. *)
Fixpoint stream_body (when : abort_time) (k : nat)
    (rest : list Uint8Array) (failure : option string)
    (lastChunk : option Uint8Array) (c : conn) : conn * option string :=
  let c := await_pull when k c in
  match rest with
  | chunk :: rest' =>
      let c :=
        match lastChunk with
        | Some held => record (Cork [write held]) c
        | None => c
        end in
      stream_body when (S k) rest' failure (Some chunk) c
  | [] =>
      match failure with
      | Some e => (c, Some e)
      | None =>
          (match lastChunk with
           | Some held => record (Cork [end_ (Some held)]) c
           | None => c
           end, None)
      end
  end.

Definition finish (when : abort_time) (response : Response) (c : conn)
    : conn * option string :=
  if aborted c then (c, None)
  else
    let c := record (Cork (head_calls response)) c in
    match body response with
    | Some b => stream_body when 0 (chunks b) (failure b) None c
    | None => (c, None)
    end.

(** [finish(response)] with its [.catch(handleError)]. *)
Definition finish_or_handleError (when : abort_time) (response : Response)
    (c : conn) : conn :=
  match finish when response c with
  | (c', Some e) => handleError e c'
  | (c', None) => c'
  end.

(** The header entries of the test application's route [/set-cookie]. *)
Definition two_cookies : list (string * string) :=
  [("Set-Cookie", "name1=value1"); ("Set-Cookie", "name2=value2")].

(** ** The callback given to [app.any("/*", ...)] *)

(** The argument of the handler. *)
Definition request_context (srv : server) (req : HttpRequest)
    (remoteAddress : list byte) : Context :=
  let r := (resolve srv req remoteAddress).1 in
  let method := getCaseSensitiveMethod req in
  {| ctx_ip := r_ip r; ctx_platform := "uwebsockets";
     ctx_url := r_url r; ctx_method := method;
     ctx_headers := Headers.of_entries (forEach req);
     ctx_has_body :=
       bool_decide (is_Some (request_body (open_connection method))) |}.

(** The callback, from [res.onAborted] to the end of the [try].  The
    constructor [new Request] is taken not to throw; when it does (a method
    or a URL it refuses), the handler is not called and the [catch] calls
    [handleError]. *)
Definition on_request (handler : HattipHandler) (when : abort_time)
    (srv : server) (req : HttpRequest) (remoteAddress : list byte)
    : conn * server :=
  let c := open_connection (getCaseSensitiveMethod req) in
  let '(r, srv') := resolve srv req remoteAddress in
  let c := if r_warned r then record Console_warn c else c in
  let result := handler (request_context srv req remoteAddress) in
  let c := await_handler when c in
  (match result with
   | Returns response | Resolves response =>
       finish_or_handleError when response c
   | Throws error | Rejects error => handleError error c
   end, srv').

(** [new URL(s)] for the strings [createServer] is given as an origin:
    [http] and [https] URLs of the shape [scheme://host:port/...], written
    without credentials.  As in the URL standard, parsing without a base URL
    fails unless the string starts with a scheme: an ASCII letter, then
    letters, digits, [+], [-] or [.], then a colon.  The facts below about
    [createServer] hold for every behaviour of [new URL]; this one is used
    to run [createServer] on examples. *)
Module URL.

Definition is_alpha (c : ascii) : bool :=
  let n := N_of_ascii (JS.lower_char c) in ((97 <=? n) && (n <=? 122))%N.

Definition is_scheme_char (c : ascii) : bool :=
  let n := N_of_ascii c in
  (is_alpha c || (48 <=? n) && (n <=? 57)
   || (n =? 43) || (n =? 45) || (n =? 46))%N.

(** The scheme (lower-cased) and what follows its colon. *)
Fixpoint scheme_state (s : string) : option (string * string) :=
  match s with
  | EmptyString => None
  | String c rest =>
      if Ascii.eqb c ":"%char then Some ("", rest)
      else if is_scheme_char c then
        '(scheme, after) ← scheme_state rest;
        Some (String (JS.lower_char c) scheme, after)
      else None
  end.

Definition ends_host (c : ascii) : bool :=
  Ascii.eqb c "/"%char || Ascii.eqb c "?"%char || Ascii.eqb c "#"%char.

Fixpoint take_host (s : string) : string :=
  match s with
  | EmptyString => EmptyString
  | String c rest =>
      if ends_host c then EmptyString else String c (take_host rest)
  end.

(** The [protocol] (scheme and colon) and [host] of the parsed URL. *)
Definition parse (s : string) : option (string * string) :=
  match s with
  | String c _ =>
      if is_alpha c then
        '(scheme, after) ← scheme_state s;
        match after with
        | String "/" (String "/" authority) =>
            Some (scheme +:+ ":", JS.toLowerCase (take_host authority))
        | _ => Some (scheme +:+ ":", "")
        end
      else None
  | EmptyString => None
  end.

End URL.

(** What is on the timeline when the handler is called: the warning, if
    no host could be found. *)
Definition opening (srv : server) (req : HttpRequest) (addr : list byte)
    : list event :=
  if r_warned (resolve srv req addr).1 then [Console_warn] else [].

(** A server with no origin, [trustProxy] off and no SSL, as [createServer]
    returns it when nothing is configured; a handler that throws. *)
Definition plain_server : server :=
  {| srv_trustProxy := false; srv_ssl := false;
     protocol := None; host := None |}.

Definition failing_handler : HattipHandler := fun _ => Throws "boom".

(** ** The claims that fail, as they are stated *)

(** "One separate header line per value": the lines written for [name] are
    its values, one by one. *)
Definition one_line_per_value (response : Response) (name : string) : Prop :=
  lines_named name
    (res_calls (timeline (finish never response (open_connection "GET")).1))
  = map (writeHeader name) (Headers.values name (headers response)).

(** "Once the abort signal is set, a read of the request body fails". *)
Definition read_fails_after_abort (c : conn) : Prop :=
  (read_body (onAborted c)).1 = Some ReadableStream.rejected.

(** The actions on a request body other than the abort. *)
Definition without_abort (acts : list body_action) : list body_action :=
  filter (fun a => ¬ is_abort a) acts.

(** No stream of the connection is errored. *)
Definition never_errored (c : conn) : Prop :=
  ∀ s, request_body c = Some s → ReadableStream.st s ≠ ReadableStream.errored.

(** ** Notions used to state further facts about the adapter *)

(** The 16-bit groups of an address, two bytes each, big-endian. *)
Fixpoint uint16_groups (bytes : list byte) : list N :=
  match bytes with
  | hi :: lo :: rest =>
      (byte_val hi * 256 + byte_val lo)%N :: uint16_groups rest
  | _ => []
  end.

(** The first twelve bytes of an IPv4-mapped IPv6 address. *)
Definition ipv4_mapped_prefix : list byte :=
  [x00; x00; x00; x00; x00; x00; x00; x00; x00; x00; xff; xff].

(** [ssl = false] in the destructuring of the options. *)
Definition ssl_in_effect (adapterOptions : option UWebSocketAdapterOptions)
    : bool :=
  default false (adapterOptions ≫= ssl).

(** The origin in effect is a non-empty string that [new URL] rejects. *)
Definition origin_is_invalid (new_URL : string → option (string * string))
    (env : ProcessEnv) (adapterOptions : option UWebSocketAdapterOptions)
    : Prop :=
  ∃ o, origin_in_effect env adapterOptions = Some o
       ∧ JS.truthy o = true ∧ new_URL o = None.

(** No call follows an [end]: the calls hold no [end], or exactly one,
    which is the last call. *)
Fixpoint end_only_last (cs : list res_call) : bool :=
  match cs with
  | [] => true
  | c :: rest =>
      if is_end c then match rest with [] => true | _ => false end
      else end_only_last rest
  end.

(** The held chunk, if any, before the chunks still to come. *)
Definition with_held (lastChunk : option Uint8Array)
    (rest : list Uint8Array) : list Uint8Array :=
  match lastChunk with
  | Some held => held :: rest
  | None => rest
  end.

(** The chunks the engine delivers, up to the one flagged as the last:
    after it the controller is closed and refuses what comes. *)
Fixpoint delivered (acts : list body_action) : list Uint8Array :=
  match acts with
  | [] => []
  | Data chunk isLast :: rest =>
      chunk :: (if isLast then [] else delivered rest)
  | _ :: rest => delivered rest
  end.

(** The chunks among the results of a sequence of reads. *)
Definition values_read (rs : list ReadableStream.read_result)
    : list Uint8Array :=
  omap (fun r => match r with
                 | ReadableStream.value chunk => Some chunk
                 | _ => None
                 end) rs.

(** What a stream can still give: its queue, and what is delivered later
    if it still takes chunks. *)
Definition still_to_read (c : conn) (acts : list body_action)
    : list Uint8Array :=
  match request_body c with
  | Some s =>
      ReadableStream.queue s
      ++ (if ReadableStream.can_close_or_enqueue s then delivered acts
          else [])
  | None => []
  end.

(** The states a stream of the adapter can be in: it is not errored, its
    close is requested only while chunks are left, and it is closed only
    with an empty queue. *)
Definition stream_ok (s : ReadableStream.t) : Prop :=
  match ReadableStream.st s with
  | ReadableStream.readable =>
      ReadableStream.closeRequested s = true → ReadableStream.queue s ≠ []
  | ReadableStream.closed =>
      ReadableStream.queue s = [] ∧ ReadableStream.closeRequested s = false
  | ReadableStream.errored => False
  end.

Definition stream_wf (c : conn) : Prop :=
  ∀ s, request_body c = Some s → stream_ok s.

(** A stream whose last chunk has arrived: it is closed, or closes once
    its queue, which is not empty, has been read. *)
Definition closing (c : conn) : Prop :=
  ∀ s, request_body c = Some s →
    ReadableStream.st s = ReadableStream.closed
    ∨ (ReadableStream.st s = ReadableStream.readable
       ∧ ReadableStream.closeRequested s = true
       ∧ ReadableStream.queue s ≠ []).

(** ** The engine after an abort

    The source does not say what a call on [res] does once the connection
    has aborted: uWebSockets.js is not part of this repository.
    [stream_body] and [finish] take such a call to return like any other.
    Here the engine is a parameter: the call returns, or it throws before
    the callback given to [cork] has run. *)
Inductive engine :=
| carries_out
| throws_when_aborted (error : string).

(** [res.cork(cb)] under an engine: the connection afterwards, and the
    error if the call threw.  A [cork] that threw has made none of the
    calls of its callback. *)
Definition cork_with (eng : engine) (cs : list res_call) (c : conn)
    : conn * option string :=
  match eng with
  | carries_out => (record (Cork cs) c, None)
  | throws_when_aborted error =>
      if aborted c then (record (Cork []) c, Some error)
      else (record (Cork cs) c, None)
  end.

(** The loop of [finish] under an engine: an exception thrown by a call on
    [res] leaves the loop, as one thrown by the iteration does. *)
Fixpoint stream_body_with (eng : engine) (when : abort_time) (k : nat)
    (rest : list Uint8Array) (failure : option string)
    (lastChunk : option Uint8Array) (c : conn) : conn * option string :=
  let c := await_pull when k c in
  match rest with
  | chunk :: rest' =>
      match lastChunk with
      | Some held =>
          match cork_with eng [write held] c with
          | (c', Some e) => (c', Some e)
          | (c', None) =>
              stream_body_with eng when (S k) rest' failure (Some chunk) c'
          end
      | None => stream_body_with eng when (S k) rest' failure (Some chunk) c
      end
  | [] =>
      match failure with
      | Some e => (c, Some e)
      | None =>
          match lastChunk with
          | Some held => cork_with eng [end_ (Some held)] c
          | None => (c, None)
          end
      end
  end.

Definition finish_with (eng : engine) (when : abort_time)
    (response : Response) (c : conn) : conn * option string :=
  if aborted c then (c, None)
  else
    let c := record (Cork (head_calls response)) c in
    match body response with
    | Some b => stream_body_with eng when 0 (chunks b) (failure b) None c
    | None => (c, None)
    end.

Definition finish_or_handleError_with (eng : engine) (when : abort_time)
    (response : Response) (c : conn) : conn :=
  match finish_with eng when response c with
  | (c', Some e) => handleError e c'
  | (c', None) => c'
  end.

(** ** Facts about the platform primitives *)

Lemma lower_char_idem (c : ascii) :
  JS.lower_char (JS.lower_char c) = JS.lower_char c.
Proof. destruct c as [[] [] [] [] [] [] [] []]; reflexivity. Qed.

Lemma toLowerCase_idem (s : string) :
  JS.toLowerCase (JS.toLowerCase s) = JS.toLowerCase s.
Proof.
  induction s as [|c s IH]; simpl; [done|].
  by rewrite lower_char_idem, IH.
Qed.

Lemma or_else_truthy (a : option string) (b : string) :
  JS.truthy b = true → JS.truthy (JS.or_else a b) = true.
Proof.
  intros Hb. destruct a as [s|]; simpl; [|done].
  destruct (JS.truthy s) eqn:Hs; done.
Qed.

Lemma or_else_Some_truthy (s b : string) :
  JS.truthy s = true → JS.or_else (Some s) b = s.
Proof. intros Hs. simpl. by rewrite Hs. Qed.

Module HeadersFacts.

Lemma of_entries_from (init : list (string * string)) (h : Headers.t) :
  fold_left (fun h kv => Headers.append (fst kv) (snd kv) h) init h
  = (h ++ map Headers.stored init)%list.
Proof.
  revert h. induction init as [|kv init IH]; intros h; simpl.
  - by rewrite app_nil_r.
  - rewrite IH. unfold Headers.append. rewrite <- app_assoc.
    by destruct kv.
Qed.

Lemma of_entries_map (init : list (string * string)) :
  Headers.of_entries init = map Headers.stored init.
Proof. unfold Headers.of_entries. by rewrite of_entries_from. Qed.

(** Names stored in a [Headers] object are in lower case. *)
Lemma stored_name_lower (init : list (string * string)) (name : string) :
  name ∈ (Headers.of_entries init).*1 → JS.toLowerCase name = name.
Proof.
  rewrite of_entries_map. intros Hin.
  apply list_elem_of_fmap in Hin as [kv [-> Hkv]].
  apply list_elem_of_fmap in Hkv as [kv' [-> _]].
  simpl. apply toLowerCase_idem.
Qed.

(** [values] only looks at the entries of the name asked for. *)
Lemma values_of_entries (name : string) (init : list (string * string)) :
  Headers.values name (Headers.of_entries init)
  = map (fun kv => Headers.normalize (snd kv))
      (filter (fun kv => JS.toLowerCase (fst kv) = JS.toLowerCase name) init).
Proof.
  rewrite of_entries_map. unfold Headers.values.
  induction init as [|kv init IH]; [done|].
  rewrite map_cons, !filter_cons.
  unfold Headers.stored at 1. cbn [fst snd].
  destruct (decide (JS.toLowerCase kv.1 = JS.toLowerCase name));
    [rewrite !map_cons; cbn [fst snd]|]; by rewrite IH.
Qed.

Lemma filter_filter_weaker {A} (P Q : A → Prop)
    `{∀ x, Decision (P x)} `{∀ x, Decision (Q x)} (l : list A) :
  (∀ x, Q x → P x) → filter Q (filter P l) = filter Q l.
Proof.
  intros HQP. induction l as [|x l IH]; [done|].
  destruct (decide (Q x)) as [HQ|HQ].
  - rewrite (filter_cons_True P) by auto.
    rewrite !filter_cons_True by done. by rewrite IH.
  - rewrite (filter_cons_False Q _ l) by done.
    destruct (decide (P x)).
    + rewrite (filter_cons_True P) by done.
      by rewrite filter_cons_False.
    + by rewrite (filter_cons_False P).
Qed.

(** Dropping entries of other names does not change what [get] returns. *)
Lemma get_filter (name : string) (P : string * string → Prop)
    `{∀ x, Decision (P x)} (init : list (string * string)) :
  (∀ kv, JS.toLowerCase (fst kv) = JS.toLowerCase name → P kv) →
  Headers.get name (Headers.of_entries (filter P init))
  = Headers.get name (Headers.of_entries init).
Proof.
  intros HP. unfold Headers.get.
  rewrite !values_of_entries, filter_filter_weaker; done.
Qed.

Lemma elem_of_insert_sorted (x y : string) (l : list string) :
  y ∈ Headers.insert_sorted x l ↔ y = x ∨ y ∈ l.
Proof.
  induction l as [|z l IH]; simpl.
  - by rewrite elem_of_cons.
  - destruct (String.leb x z); rewrite !elem_of_cons; [done|].
    rewrite IH. tauto.
Qed.

Lemma elem_of_sort (y : string) (l : list string) :
  y ∈ Headers.sort l ↔ y ∈ l.
Proof.
  induction l as [|x l IH]; simpl; [done|].
  rewrite elem_of_insert_sorted, elem_of_cons, IH. done.
Qed.

Lemma elem_of_combine_names (y : string) (l : list string) :
  y ∈ Headers.combine_names l ↔ y ∈ l.
Proof.
  induction l as [|x [|z l] IH]; [done|done|].
  change (Headers.combine_names (x :: z :: l)) with
    (if decide (x = z) then
       if decide (x = "set-cookie") then x :: Headers.combine_names (z :: l)
       else Headers.combine_names (z :: l)
     else x :: Headers.combine_names (z :: l)).
  destruct (decide (x = z)) as [->|Hne];
    [destruct (decide (z = "set-cookie"))|];
    rewrite ?(elem_of_cons (Headers.combine_names _)), IH, !elem_of_cons;
    tauto.
Qed.

Lemma elem_of_keys (name : string) (h : Headers.t) :
  name ∈ Headers.keys h ↔ name ∈ h.*1.
Proof.
  unfold Headers.keys. by rewrite elem_of_combine_names, elem_of_sort.
Qed.

Lemma elem_of_Set_of_aux (y : string) (seen l : list string) :
  y ∈ Set_of_aux seen l ↔ y ∈ l ∧ y ∉ seen.
Proof.
  revert seen. induction l as [|x l IH]; intros seen; simpl.
  - rewrite elem_of_nil. tauto.
  - destruct (decide (x ∈ seen)).
    + rewrite IH, elem_of_cons. intuition congruence.
    + rewrite !elem_of_cons, IH, not_elem_of_cons.
      destruct (decide (y = x)) as [->|]; intuition.
Qed.

Lemma NoDup_Set_of_aux (seen l : list string) : NoDup (Set_of_aux seen l).
Proof.
  revert seen. induction l as [|x l IH]; intros seen; simpl.
  - constructor.
  - destruct (decide (x ∈ seen)); [done|].
    constructor; [|done].
    rewrite elem_of_Set_of_aux, not_elem_of_cons. tauto.
Qed.

Lemma elem_of_Set_of (y : string) (l : list string) : y ∈ Set_of l ↔ y ∈ l.
Proof.
  unfold Set_of. rewrite elem_of_Set_of_aux, elem_of_nil. tauto.
Qed.

(** A name that is stored has a value. *)
Lemma values_stored (name : string) (init : list (string * string)) :
  name ∈ (Headers.of_entries init).*1 →
  Headers.values name (Headers.of_entries init) ≠ [].
Proof.
  intros Hin. pose proof (stored_name_lower _ _ Hin) as Hlow.
  apply list_elem_of_fmap in Hin as [[k v] [-> Hkv]]. simpl in *.
  unfold Headers.values. intros Hnil.
  apply fmap_nil_inv in Hnil.
  assert (Hmem : (k, v) ∈ filter
            (λ kv : string * string, kv.1 = JS.toLowerCase k)
            (Headers.of_entries init)).
  { apply list_elem_of_filter. split; [by simpl|done]. }
  rewrite Hnil in Hmem. by apply not_elem_of_nil in Hmem.
Qed.

End HeadersFacts.

(** ** Response headers *)

Section HeaderLines.

Variable emit : string → list res_call.
Hypothesis emit_named : ∀ m c, c ∈ emit m → header_name c = Some m.

Lemma lines_named_own (name : string) :
  lines_named name (emit name) = emit name.
Proof.
  unfold lines_named.
  assert (Hall : Forall (λ c, header_name c = Some name) (emit name)).
  { apply Forall_forall. intros c Hc. by apply emit_named. }
  induction Hall as [|c cs Hc _ IH]; [done|].
  rewrite filter_cons_True by done. by rewrite IH.
Qed.

Lemma lines_named_other (name m : string) :
  m ≠ name → lines_named name (emit m) = [].
Proof.
  intros Hne. unfold lines_named.
  assert (Hall : Forall (λ c, header_name c = Some m) (emit m)).
  { apply Forall_forall. intros c Hc. by apply emit_named. }
  induction Hall as [|c cs Hc _ IH]; [done|].
  rewrite filter_cons_False; [done|]. rewrite Hc. congruence.
Qed.

Lemma lines_named_absent (name : string) (names : list string) :
  name ∉ names → lines_named name (flat_map emit names) = [].
Proof.
  induction names as [|m names IH]; [done|].
  rewrite not_elem_of_cons. intros [Hne Hnot]. simpl.
  unfold lines_named in *. rewrite filter_app.
  fold (lines_named name (emit m)).
  rewrite lines_named_other by done. by rewrite IH.
Qed.

(** Among the lines written for distinct names, those of one name are
    the ones written when the loop reaches that name. *)
Lemma lines_named_flat_map (name : string) (names : list string) :
  NoDup names → name ∈ names →
  lines_named name (flat_map emit names) = emit name.
Proof.
  induction 1 as [|m names Hm Hnd IH]; [by rewrite elem_of_nil|].
  rewrite elem_of_cons. intros Hin. simpl.
  unfold lines_named in *. rewrite filter_app.
  fold (lines_named name (emit m)).
  fold (lines_named name (flat_map emit names)).
  destruct (decide (m = name)) as [->|Hne].
  - rewrite lines_named_own, lines_named_absent by done.
    by rewrite app_nil_r.
  - rewrite lines_named_other by done.
    destruct Hin as [->|Hin]; [done|]. by apply IH.
Qed.

End HeaderLines.

Lemma emit_header_named (h : Headers.t) (m : string) (c : res_call) :
  c ∈ emit_header h m → header_name c = Some m.
Proof.
  unfold emit_header. destruct (decide (m = "set-cookie")).
  - intros Hc. apply list_elem_of_fmap in Hc as [v [-> _]]. done.
  - rewrite list_elem_of_singleton. by intros ->.
Qed.

(** What the loop over [uniqueHeaderNames] writes for a name that the
    response has. *)
Lemma header_calls_of_name (init : list (string * string)) (name : string) :
  name ∈ (Headers.of_entries init).*1 →
  lines_named name (header_calls (Headers.of_entries init))
  = if decide (name = "set-cookie")
    then map (writeHeader name)
           (Headers.values name (Headers.of_entries init))
    else [writeHeader name
            (JS.join ", " (Headers.values name (Headers.of_entries init)))].
Proof.
  intros Hin. set (h := Headers.of_entries init) in *.
  unfold header_calls.
  rewrite (lines_named_flat_map (emit_header h) (emit_header_named h)).
  - unfold emit_header. destruct (decide (name = "set-cookie")) as [->|]; [done|].
    unfold Headers.get.
    pose proof (HeadersFacts.values_stored name init Hin) as Hv.
    fold h in Hv. by destruct (Headers.values name h).
  - apply HeadersFacts.NoDup_Set_of_aux.
  - by rewrite HeadersFacts.elem_of_Set_of, HeadersFacts.elem_of_keys.
Qed.

(** ** Origin resolution *)

Lemma resolve_keeps_config (srv : server) (req : HttpRequest)
    (addr : list byte) :
  srv_trustProxy (resolve srv req addr).2 = srv_trustProxy srv
  ∧ srv_ssl (resolve srv req addr).2 = srv_ssl srv.
Proof. done. Qed.

Lemma resolved_origin_truthy (srv : server) (req : HttpRequest)
    (addr : list byte) :
  JS.truthy (r_protocol (resolve srv req addr).1) = true
  ∧ JS.truthy (r_host (resolve srv req addr).1) = true.
Proof.
  split; simpl.
  - do 3 (apply or_else_truthy). done.
  - match goal with |- context [negb (JS.truthy ?h)] =>
      destruct (JS.truthy h) eqn:Hh end; done.
Qed.

Lemma resolve_stores_origin (srv : server) (req : HttpRequest)
    (addr : list byte) :
  protocol (resolve srv req addr).2 = Some (r_protocol (resolve srv req addr).1)
  ∧ host (resolve srv req addr).2 = Some (r_host (resolve srv req addr).1).
Proof. done. Qed.

(** Once [protocol] and [host] hold non-empty strings, every request
    resolves to them, whatever it carries. *)
Lemma resolve_set_origin (srv : server) (p h : string) (req : HttpRequest)
    (addr : list byte) :
  protocol srv = Some p → host srv = Some h →
  JS.truthy p = true → JS.truthy h = true →
  origin_of (resolve srv req addr).1 = (p, h).
Proof.
  intros Hp Hh Tp Th. unfold origin_of, resolve. simpl.
  rewrite Hp, Hh, !or_else_Some_truthy by done. by rewrite Th.
Qed.

(** The origin resolved for one request is the origin of every request
    the same server serves after it. *)
Lemma resolve_sticky (srv : server) (req req' : HttpRequest)
    (addr addr' : list byte) :
  origin_of (resolve (resolve srv req addr).2 req' addr').1
  = origin_of (resolve srv req addr).1.
Proof.
  destruct (resolved_origin_truthy srv req addr) as [Tp Th].
  destruct (resolve_stores_origin srv req addr) as [Hp Hh].
  by apply resolve_set_origin.
Qed.

(** C1 fails on the code: [protocol] and [host] are variables of
    [createServer] that the request callback assigns, so a server created
    with no origin gives the second request the host of the first.  Served
    alone, that request resolves to its own host. *)
Theorem origin_of_first_request_sticks
    (new_URL : string → option (string * string)) :
  ∃ srv,
    (createServer new_URL {| ORIGIN := None; TRUST_PROXY := None |}
       None None).2 = inr srv
    ∧ map origin_of
        (resolve_all srv
           [(get_request [("host", "a.example")], []);
            (get_request [("host", "b.example")], [])])
      = [("http", "a.example"); ("http", "a.example")]
    ∧ map origin_of
        (resolve_all srv [(get_request [("host", "b.example")], [])])
      = [("http", "b.example")].
Proof. eexists. split; [reflexivity|]. split; reflexivity. Qed.

Lemma host_is_not_forwarded (kv : string * string) :
  JS.toLowerCase kv.1 = JS.toLowerCase "host" →
  ¬ names_forwarded_origin kv.1.
Proof.
  unfold names_forwarded_origin. intros ->. simpl. tauto.
Qed.

(** Without [trustProxy] the callback never calls [getForwardedHeader] for
    the scheme or the host. *)
Lemma resolve_without_proxy (srv : server)
    (req1 req2 : HttpRequest) (addr : list byte) :
  srv_trustProxy srv = false →
  without_forwarded_origin (forEach req1)
  = without_forwarded_origin (forEach req2) →
  origin_of (resolve srv req1 addr).1 = origin_of (resolve srv req2 addr).1
  ∧ (resolve srv req1 addr).2 = (resolve srv req2 addr).2
  ∧ r_protocol (resolve srv req1 addr).1
    = JS.or_else (protocol srv) (if srv_ssl srv then "https" else "http")
  ∧ r_host (resolve srv req1 addr).1
    = (let h :=
         JS.or_else (host srv)
           (JS.or_else
              (Headers.get "host"
                 (Headers.of_entries
                    (without_forwarded_origin (forEach req1))))
              (ipAddressBytesToString addr)) in
       if JS.truthy h then h else "localhost").
Proof.
  intros Htp Hsame.
  assert (Hhost : ∀ req,
    Headers.get "host" (Headers.of_entries (forEach req))
    = Headers.get "host"
        (Headers.of_entries (without_forwarded_origin (forEach req)))).
  { intros req. symmetry. apply HeadersFacts.get_filter.
    apply host_is_not_forwarded. }
  unfold origin_of, resolve. simpl. rewrite Htp. simpl.
  rewrite !Hhost, Hsame.
  repeat split.
  - by destruct (srv_ssl srv).
  - match goal with |- context [negb (JS.truthy ?h)] =>
      destruct (JS.truthy h) end; done.
Qed.



(** The same over a whole run: with [trustProxy] off, two sequences of
    requests that differ only in those two headers resolve to the same
    origins, request by request. *)
Lemma run_without_proxy (srv : server)
    (reqs1 reqs2 : list (HttpRequest * list byte)) :
  srv_trustProxy srv = false →
  Forall2
    (λ a b, without_forwarded_origin (forEach a.1)
            = without_forwarded_origin (forEach b.1) ∧ a.2 = b.2)
    reqs1 reqs2 →
  map origin_of (resolve_all srv reqs1) = map origin_of (resolve_all srv reqs2).
Proof.
  intros Htp Hall. revert srv Htp.
  induction Hall as [|[req1 addr1] [req2 addr2] reqs1 reqs2 [Hsame Haddr] _ IH];
    intros srv Htp; [done|].
  simpl in Hsame, Haddr. subst addr2.
  destruct (resolve_without_proxy srv req1 req2 addr1 Htp Hsame)
    as (Ho & Hs & _).
  cbn [resolve_all].
  destruct (resolve srv req1 addr1) as [r1 s1] eqn:E1.
  destruct (resolve srv req2 addr1) as [r2 s2] eqn:E2.
  simpl in Ho, Hs. subst s2. cbn [map]. rewrite Ho. f_equal.
  apply IH.
  pose proof (resolve_keeps_config srv req1 addr1) as [Hk _].
  rewrite E1 in Hk. simpl in Hk. congruence.
Qed.

(** ** The response writer *)

Lemma res_calls_app (tl1 tl2 : list event) :
  res_calls (tl1 ++ tl2) = res_calls tl1 ++ res_calls tl2.
Proof. unfold res_calls. apply flat_map_app. Qed.

Lemma res_calls_record (e : event) (c : conn) :
  res_calls (timeline (record e c)) = res_calls (timeline c) ++ calls_of e.
Proof.
  unfold record. simpl. rewrite res_calls_app. simpl. by rewrite app_nil_r.
Qed.

Lemma res_calls_onAborted (c : conn) :
  res_calls (timeline (onAborted c)) = res_calls (timeline c).
Proof. unfold onAborted. rewrite res_calls_record. apply app_nil_r. Qed.

Lemma res_calls_await_pull (when : abort_time) (k : nat) (c : conn) :
  res_calls (timeline (await_pull when k c)) = res_calls (timeline c).
Proof.
  destruct when as [| |k']; simpl; try done.
  destruct (decide (k' = k)); [apply res_calls_onAborted|done].
Qed.

Lemma header_calls_only_headers (h : Headers.t) (c : res_call) :
  c ∈ header_calls h → ∃ name, header_name c = Some name.
Proof.
  unfold header_calls. rewrite list_elem_of_In, in_flat_map.
  intros (name & _ & Hc). exists name.
  apply (emit_header_named h). by apply list_elem_of_In.
Qed.

(** A test that rejects every [writeHeader] call rejects the whole loop
    over the header names. *)
Lemma header_calls_filter (p : res_call → bool) (h : Headers.t) :
  (∀ key value, p (writeHeader key value) = false) →
  filter p (header_calls h) = [].
Proof.
  intros Hp.
  assert (Hall : Forall (λ c, ∃ name, header_name c = Some name)
                   (header_calls h)).
  { apply Forall_forall. apply header_calls_only_headers. }
  induction Hall as [|c cs [name Hc] _ IH]; [done|].
  rewrite filter_cons_False; [done|].
  destruct c; try discriminate. rewrite Hp. tauto.
Qed.

(** The loop over the body only makes [write] and [end] calls. *)
Lemma stream_body_calls (when : abort_time) (rest : list Uint8Array)
    (failure : option string) :
  ∀ (k : nat) (lastChunk : option Uint8Array) (c : conn),
    ∃ extra,
      res_calls (timeline (stream_body when k rest failure lastChunk c).1)
      = res_calls (timeline c) ++ extra
      ∧ Forall (λ x, is_body_call x) extra.
Proof.
  induction rest as [|chunk rest IH]; intros k lastChunk c.
  - cbn [stream_body].
    destruct failure as [e|]; [|destruct lastChunk as [held|]]; cbn [fst].
    + exists []. by rewrite res_calls_await_pull, app_nil_r.
    + exists [end_ (Some held)].
      rewrite res_calls_record, res_calls_await_pull. split; [done|].
      by repeat constructor.
    + exists []. by rewrite res_calls_await_pull, app_nil_r.
  - cbn [stream_body]. destruct lastChunk as [held|].
    + destruct (IH (S k) (Some chunk)
                  (record (Cork [write held]) (await_pull when k c)))
        as (extra & -> & Hextra).
      exists (write held :: extra).
      rewrite res_calls_record, res_calls_await_pull, <- app_assoc.
      split; [done|]. by constructor.
    + destruct (IH (S k) (Some chunk) (await_pull when k c))
        as (extra & -> & Hextra).
      exists extra. by rewrite res_calls_await_pull.
Qed.

Lemma lines_named_body_calls (name : string) (cs : list res_call) :
  Forall (λ x, is_body_call x) cs → lines_named name cs = [].
Proof.
  unfold lines_named. induction 1 as [|c cs Hc _ IH]; [done|].
  rewrite filter_cons_False; [done|]. by destruct c.
Qed.

(** The header lines of a response are those of its header block. *)
Lemma lines_named_finish (when : abort_time) (response : Response)
    (method name : string) :
  lines_named name
    (res_calls
       (timeline (finish when response (open_connection method)).1))
  = lines_named name (header_calls (headers response)).
Proof.
  unfold finish. cbn [aborted open_connection].
  set (c := record _ _).
  assert (Hc : res_calls (timeline c) = head_calls response).
  { subst c. rewrite res_calls_record. done. }
  assert (Hhead : lines_named name (head_calls response)
                  = lines_named name (header_calls (headers response))).
  { unfold head_calls, lines_named.
    rewrite filter_cons_False by (simpl; congruence).
    rewrite filter_app.
    destruct (body response); simpl; [by rewrite app_nil_r|].
    rewrite filter_cons_False by (simpl; congruence).
    by rewrite app_nil_r. }
  destruct (body response) as [b|]; cbn [fst].
  - destruct (stream_body_calls when (chunks b) (failure b) 0 None c)
      as (extra & -> & Hextra).
    unfold lines_named in *. rewrite filter_app, Hc, Hhead.
    fold (lines_named name extra).
    by rewrite lines_named_body_calls, app_nil_r.
  - by rewrite Hc.
Qed.

(** C4, as amended: the writer writes a [set-cookie] header as one line
    per value, in order; every other header name of the response is written
    as exactly one line, whose value is all the values of that name joined
    by a comma and a space. *)
Theorem header_lines_of_name (code : N) (text : string)
    (init : list (string * string)) (content : option Body)
    (when : abort_time) (method name : string) :
  let h := Headers.of_entries init in
  let response :=
    {| status := code; statusText := text; headers := h; body := content |} in
  name ∈ h.*1 →
  lines_named name
    (res_calls (timeline (finish when response (open_connection method)).1))
  = if decide (name = "set-cookie")
    then map (writeHeader name) (Headers.values name h)
    else [writeHeader name (JS.join ", " (Headers.values name h))].
Proof.
  intros h response Hin. rewrite lines_named_finish.
  by apply header_calls_of_name.
Qed.

Lemma header_lines_of_name_witness :
  "set-cookie" ∈ (Headers.of_entries two_cookies).*1
  ∧ lines_named "set-cookie"
      (res_calls
         (timeline
            (finish never
               {| status := 200; statusText := "OK";
                  headers := Headers.of_entries two_cookies;
                  body := None |}
               (open_connection "GET")).1))
    = [writeHeader "set-cookie" "name1=value1";
       writeHeader "set-cookie" "name2=value2"].
Proof.
  assert (Hin : "set-cookie" ∈ (Headers.of_entries two_cookies).*1)
    by (vm_compute; apply list_elem_of_here).
  split; [exact Hin|].
  exact (header_lines_of_name 200 "OK" two_cookies None never "GET"
           "set-cookie" Hin).
Defined.

(** C4, as stated, fails for a name other than [set-cookie]: two values of
    [x-tag] are written as the single line [x-tag: a, b]. *)
Lemma joined_header_line :
  ¬ one_line_per_value
      {| status := 200; statusText := "OK";
         headers := Headers.of_entries [("x-tag", "a"); ("x-tag", "b")];
         body := None |}
      "x-tag".
Proof. vm_compute. discriminate. Qed.

(** C7: a body of the chunks [A], [B], [C], with no abort, is written by
    three calls after the header block, in this order: [write(A)],
    [write(B)] and [end(C)], which also completes the response. *)
Theorem three_chunks_three_calls (code : N) (text : string) (h : Headers.t)
    (A B C : Uint8Array) (method : string) :
  let response :=
    {| status := code; statusText := text; headers := h;
       body := Some {| chunks := [A; B; C]; failure := None |} |} in
  let c := (finish never response (open_connection method)).1 in
  timeline c
  = [Cork (writeStatus (status_line response) :: header_calls h);
     Cork [write A]; Cork [write B]; Cork [end_ (Some C)]]
  ∧ filter is_body_call (res_calls (timeline c))
    = [write A; write B; end_ (Some C)].
Proof.
  intros response c. assert (Htl : timeline c
    = [Cork (writeStatus (status_line response) :: header_calls h);
       Cork [write A]; Cork [write B]; Cork [end_ (Some C)]]).
  { subst c response. unfold finish. cbn. unfold head_calls.
    cbn [body headers]. by rewrite app_nil_r. }
  split; [done|]. rewrite Htl. cbn [res_calls flat_map calls_of app].
  rewrite filter_cons_False by (simpl; tauto).
  rewrite filter_app, header_calls_filter by done. reflexivity.
Qed.

(** A response with no body is completed by the header block: one [end()]
    in the first [cork], and no other call for the body. *)
Lemma absent_body_one_end (code : N) (text : string) (h : Headers.t)
    (when : abort_time) (method : string) :
  let response :=
    {| status := code; statusText := text; headers := h; body := None |} in
  let c := (finish when response (open_connection method)).1 in
  timeline c
  = [Cork (writeStatus (status_line response) :: header_calls h
           ++ [end_ None])]
  ∧ filter is_body_call (res_calls (timeline c)) = [end_ None].
Proof.
  intros response c. split; [done|].
  subst c response. unfold finish.
  cbn [open_connection aborted body record timeline fst app
       res_calls flat_map calls_of head_calls].
  rewrite app_nil_r.
  rewrite filter_cons_False by (simpl; tauto).
  rewrite filter_app, header_calls_filter by done. reflexivity.
Qed.

(** C5 fails on the code for a body stream that yields no chunk: the
    header block is written without [end()], the loop runs zero times and
    [lastChunk] stays [undefined], so no [end] call is ever made and the
    response is never completed. *)
Theorem empty_stream_never_ended (code : N) (text : string) (h : Headers.t)
    (method : string) :
  let response :=
    {| status := code; statusText := text; headers := h;
       body := Some {| chunks := []; failure := None |} |} in
  let c := (finish never response (open_connection method)).1 in
  timeline c = [Cork (writeStatus (status_line response) :: header_calls h)]
  ∧ filter is_end (res_calls (timeline c)) = [].
Proof.
  intros response c. assert (Htl : timeline c
    = [Cork (writeStatus (status_line response) :: header_calls h)]).
  { subst c response. unfold finish. cbn. unfold head_calls.
    cbn [body headers]. by rewrite app_nil_r. }
  split; [done|]. rewrite Htl. cbn [res_calls flat_map calls_of app].
  rewrite app_nil_r.
  rewrite filter_cons_False by (simpl; tauto).
  by apply header_calls_filter.
Qed.

(** ** The dispatch of one request *)

Lemma finish_aborted (when : abort_time) (response : Response) (c : conn) :
  aborted c = true → finish when response c = (c, None).
Proof. intros Hab. unfold finish. by rewrite Hab. Qed.

Lemma handleError_aborted (error : string) (c : conn) :
  aborted c = true → handleError error c = c.
Proof. intros Hab. unfold handleError. by rewrite Hab. Qed.

Lemma on_request_unfold (handler : HattipHandler) (when : abort_time)
    (srv : server) (req : HttpRequest) (addr : list byte) :
  (on_request handler when srv req addr).1
  = let c :=
      await_handler when
        {| aborted := false;
           request_body :=
             request_body (open_connection (getCaseSensitiveMethod req));
           timeline := opening srv req addr |} in
    match handler (request_context srv req addr) with
    | Returns response | Resolves response =>
        finish_or_handleError when response c
    | Throws error | Rejects error => handleError error c
    end.
Proof.
  unfold on_request, opening.
  destruct (resolve srv req addr) as [r srv'] eqn:E. cbn [fst snd].
  destruct (r_warned r); reflexivity.
Qed.

(** C8: when the abort comes before the handler's result is taken up,
    nothing is called on [res], whatever the handler returns, throws or
    promises; nothing is logged for it either. *)
Theorem nothing_written_after_early_abort (handler : HattipHandler)
    (srv : server) (req : HttpRequest) (addr : list byte) :
  timeline (on_request handler before_response srv req addr).1
  = opening srv req addr ++ [Abort]
  ∧ res_calls (timeline (on_request handler before_response srv req addr).1)
    = [].
Proof.
  rewrite on_request_unfold. cbn zeta. cbn [await_handler].
  set (c := onAborted _).
  assert (Hab : aborted c = true) by done.
  assert (Hc : (match handler (request_context srv req addr) with
                | Returns response | Resolves response =>
                    finish_or_handleError before_response response c
                | Throws error | Rejects error => handleError error c
                end) = c).
  { destruct (handler _); unfold finish_or_handleError;
      rewrite ?finish_aborted, ?handleError_aborted; done. }
  rewrite Hc. subst c. split; [done|].
  rewrite res_calls_onAborted. cbn [timeline]. unfold opening.
  by destruct (r_warned _).
Qed.

(** C9: when the handler throws or its promise rejects, the adapter writes
    the status [500 Internal Server Error] and ends the response with no
    body, by these two calls and no other; the error goes to the console
    only.  When the abort has come first, nothing is called on [res]. *)
Theorem handler_error_gives_500 (handler : HattipHandler) (when : abort_time)
    (srv : server) (req : HttpRequest) (addr : list byte) (error : string) :
  handler (request_context srv req addr) = Throws error
  ∨ handler (request_context srv req addr) = Rejects error →
  res_calls (timeline (on_request handler when srv req addr).1)
  = match when with
    | before_response => []
    | _ => [writeStatus "500 Internal Server Error"; end_ None]
    end.
Proof.
  intros Herr. rewrite on_request_unfold. cbn zeta.
  assert (Hw : res_calls (opening srv req addr) = []).
  { unfold opening. by destruct (r_warned _). }
  assert (He : ∀ c, (match handler (request_context srv req addr) with
                | Returns response | Resolves response =>
                    finish_or_handleError when response c
                | Throws error | Rejects error => handleError error c
                end) = handleError error c).
  { intros c. by destruct Herr as [-> | ->]. }
  rewrite He.
  destruct when as [| |k]; cbn [await_handler].
  - unfold handleError. cbn [aborted]. rewrite !res_calls_record.
    cbn [timeline]. by rewrite Hw.
  - rewrite handleError_aborted by done.
    rewrite res_calls_onAborted. cbn [timeline]. by rewrite Hw.
  - unfold handleError. cbn [aborted]. rewrite !res_calls_record.
    cbn [timeline]. by rewrite Hw.
Qed.

Lemma handler_error_gives_500_witness :
  (failing_handler
     (request_context plain_server (get_request [("host", "a.example")]) [])
   = Throws "boom"
   ∨ failing_handler
       (request_context plain_server (get_request [("host", "a.example")]) [])
     = Rejects "boom")
  ∧ res_calls
      (timeline
         (on_request failing_handler never plain_server
            (get_request [("host", "a.example")]) []).1)
    = [writeStatus "500 Internal Server Error"; end_ None].
Proof.
  split; [left; reflexivity|].
  apply (handler_error_gives_500 failing_handler never plain_server
           (get_request [("host", "a.example")]) [] "boom").
  left. reflexivity.
Defined.

(** ** The request body *)

Lemma onData_body (chunk : Uint8Array) (isLast : bool) (c c' : conn) :
  request_body c = request_body c' →
  request_body (onData chunk isLast c)
  = request_body (onData chunk isLast c').
Proof.
  intros Hb. unfold onData. rewrite <- Hb.
  destruct (request_body c) as [s|] eqn:Eb; [|congruence].
  destruct (ReadableStream.enqueue chunk s); [done|congruence].
Qed.

Lemma read_body_body (c c' : conn) :
  request_body c = request_body c' →
  (read_body c).1 = (read_body c').1
  ∧ request_body (read_body c).2 = request_body (read_body c').2.
Proof.
  intros Hb. unfold read_body. rewrite <- Hb.
  destruct (request_body c) as [s|] eqn:Eb; [|split; [done|simpl; congruence]].
  destruct (ReadableStream.read s); done.
Qed.

(** What the reads return does not depend on the abort. *)
Lemma run_body_without_abort (acts : list body_action) :
  ∀ c c', request_body c = request_body c' →
    (run_body acts c).1 = (run_body (without_abort acts) c').1.
Proof.
  unfold without_abort.
  induction acts as [|[chunk isLast| |] acts IH]; intros c c' Hb.
  - done.
  - rewrite filter_cons_True by (simpl; tauto). cbn [run_body].
    apply IH. by apply onData_body.
  - rewrite filter_cons_False by (simpl; tauto). cbn [run_body].
    by apply IH.
  - rewrite filter_cons_True by (simpl; tauto). cbn [run_body].
    destruct (read_body_body c c' Hb) as [Hr Hb'].
    destruct (read_body c) as [r c1], (read_body c') as [r' c1'].
    simpl in Hr, Hb'. subst r'.
    specialize (IH c1 c1' Hb').
    destruct (run_body acts c1) as [rs c2].
    destruct (run_body (filter _ acts) c1') as [rs' c2'].
    simpl in IH. subst rs'. done.
Qed.

Lemma enqueue_st (chunk : Uint8Array) (s s' : ReadableStream.t) :
  ReadableStream.enqueue chunk s = Some s' →
  ReadableStream.st s' = ReadableStream.st s.
Proof.
  unfold ReadableStream.enqueue.
  destruct (ReadableStream.can_close_or_enqueue s); [|done].
  by intros [= <-].
Qed.

Lemma close_st (s s' : ReadableStream.t) :
  ReadableStream.close s = Some s' →
  ReadableStream.st s ≠ ReadableStream.errored →
  ReadableStream.st s' ≠ ReadableStream.errored.
Proof.
  unfold ReadableStream.close.
  destruct (ReadableStream.can_close_or_enqueue s); [|done].
  destruct (ReadableStream.queue s); by intros [= <-].
Qed.

Lemma read_st (s : ReadableStream.t) :
  ReadableStream.st s ≠ ReadableStream.errored →
  (ReadableStream.read s).1 ≠ ReadableStream.rejected
  ∧ ReadableStream.st (ReadableStream.read s).2 ≠ ReadableStream.errored.
Proof.
  unfold ReadableStream.read. intros Hs.
  destruct (ReadableStream.st s) eqn:Est; [|simpl; by rewrite Est|done].
  destruct (ReadableStream.queue s) as [|chunk [|chunk' q]]; simpl.
  - by rewrite Est.
  - by destruct (ReadableStream.closeRequested s).
  - done.
Qed.

Lemma never_errored_open (method : string) :
  never_errored (open_connection method).
Proof.
  unfold never_errored, open_connection. simpl.
  destruct (_ || _); [done|]. by intros s [= <-].
Qed.

Lemma never_errored_onAborted (c : conn) :
  never_errored c → never_errored (onAborted c).
Proof. done. Qed.

Lemma never_errored_onData (chunk : Uint8Array) (isLast : bool) (c : conn) :
  never_errored c → never_errored (onData chunk isLast c).
Proof.
  unfold never_errored, onData. intros Hc.
  destruct (request_body c) as [s|] eqn:Eb; [|by rewrite Eb].
  destruct (ReadableStream.enqueue chunk s) as [s1|] eqn:E1;
    [|by rewrite Eb].
  pose proof (enqueue_st _ _ _ E1) as H1. specialize (Hc s eq_refl).
  cbn [request_body]. intros s2 [= <-].
  destruct isLast; [|congruence].
  destruct (ReadableStream.close s1) as [s2|] eqn:E2; simpl.
  - apply (close_st _ _ E2). congruence.
  - congruence.
Qed.

Lemma never_errored_read_body (c : conn) :
  never_errored c →
  (read_body c).1 ≠ Some ReadableStream.rejected
  ∧ never_errored (read_body c).2.
Proof.
  unfold never_errored, read_body. intros Hc.
  destruct (request_body c) as [s|] eqn:Eb.
  - destruct (read_st s (Hc s eq_refl)) as [Hr Hs].
    destruct (ReadableStream.read s) as [r s']. simpl in *.
    split; [congruence|]. by intros s2 [= <-].
  - split; [done|]. simpl. by rewrite Eb.
Qed.

Lemma run_body_never_rejected (acts : list body_action) :
  ∀ c, never_errored c → ReadableStream.rejected ∉ (run_body acts c).1.
Proof.
  induction acts as [|[chunk isLast| |] acts IH]; intros c Hc;
    cbn [run_body].
  - apply not_elem_of_nil.
  - by apply IH, never_errored_onData.
  - by apply IH, never_errored_onAborted.
  - destruct (never_errored_read_body c Hc) as [Hr Hc'].
    destruct (read_body c) as [r c1]. simpl in Hr, Hc'.
    specialize (IH c1 Hc').
    destruct (run_body acts c1) as [rs c2]. simpl in *.
    destruct r as [r|]; [|done].
    rewrite not_elem_of_cons. split; [congruence|done].
Qed.

(** C6, as amended: the abort only sets the flag.  The body stream of the
    request is left as it is: the reads return what they return when no
    abort comes (chunks that have arrived, the end after the last chunk, or
    nothing yet) and no read ever fails. *)
Theorem abort_leaves_request_body (method : string)
    (acts : list body_action) :
  (run_body acts (open_connection method)).1
  = (run_body (without_abort acts) (open_connection method)).1
  ∧ ReadableStream.rejected ∉ (run_body acts (open_connection method)).1.
Proof.
  split.
  - by apply run_body_without_abort.
  - apply run_body_never_rejected, never_errored_open.
Qed.

(** C6, as stated, fails: after the abort, a read of the body of a POST
    request stays pending. *)
Lemma read_pending_after_abort :
  ¬ read_fails_after_abort (open_connection "POST")
  ∧ (read_body (onAborted (open_connection "POST"))).1
    = Some ReadableStream.pending.
Proof. split; [|reflexivity]. vm_compute. discriminate. Qed.

(** ** [createServer] *)

Section CreateServerFacts.

Variable new_URL : string → option (string * string).

(** [createServer] throws whenever [ssl] is set and [appOptions] is not
    given, before any app is created. *)
Lemma createServer_ssl_throws (env : ProcessEnv)
    (opts : UWebSocketAdapterOptions) :
  ssl opts = Some true →
  ∃ e, createServer new_URL env (Some opts) None = ([], inl e).
Proof.
  intros Hssl. unfold createServer. cbn [mbind option_bind].
  rewrite Hssl. simpl.
  destruct (JS.truthy _); [|by eexists].
  destruct (new_URL _) as [[p h]|]; by eexists.
Qed.

Lemma createServer_ssl_message (env : ProcessEnv)
    (opts : UWebSocketAdapterOptions) :
  ssl opts = Some true →
  (∀ o, origin_in_effect env (Some opts) = Some o →
        JS.truthy o = true → is_Some (new_URL o)) →
  createServer new_URL env (Some opts) None
  = ([], inl (Error "SSL requires appOptions")).
Proof.
  intros Hssl Hvalid. unfold createServer. cbn [mbind option_bind].
  rewrite Hssl.
  destruct (origin_in_effect env (Some opts)) as [o|] eqn:Eo;
    [|reflexivity].
  simpl. destruct (JS.truthy o) eqn:To; [|reflexivity].
  destruct (Hvalid o eq_refl To) as [[p h] ->]. reflexivity.
Qed.

(** An origin that is not a URL makes [createServer] throw at once,
    whatever the other options. *)
Lemma createServer_invalid_origin (env : ProcessEnv)
    (adapterOptions : option UWebSocketAdapterOptions)
    (appOptions : option AppOptions) :
  origin_is_invalid new_URL env adapterOptions →
  createServer new_URL env adapterOptions appOptions
  = ([], inl TypeError_Invalid_URL).
Proof.
  intros (o & Ho & To & Hu). unfold createServer. rewrite Ho.
  cbn [default from_option id]. by rewrite To, Hu.
Qed.

End CreateServerFacts.

(** C10, as amended: with [ssl] set and no [appOptions], [createServer]
    throws before it creates an app or registers the handler.  When the
    origin in effect is a non-empty string that is not a URL, the error is
    the one [new URL] throws, which comes first; in every other case it is
    [SSL requires appOptions]. *)
Theorem ssl_without_appOptions_throws
    (new_URL : string → option (string * string)) (env : ProcessEnv)
    (opts : UWebSocketAdapterOptions) :
  ssl opts = Some true →
  (∃ e, createServer new_URL env (Some opts) None = ([], inl e))
  ∧ (origin_is_invalid new_URL env (Some opts) →
     createServer new_URL env (Some opts) None
     = ([], inl TypeError_Invalid_URL))
  ∧ (¬ origin_is_invalid new_URL env (Some opts) →
     createServer new_URL env (Some opts) None
     = ([], inl (Error "SSL requires appOptions"))).
Proof.
  intros Hssl. split; [by apply createServer_ssl_throws|]. split.
  - apply createServer_invalid_origin.
  - intros Hvalid. apply createServer_ssl_message; [done|].
    intros o Ho To. destruct (new_URL o) eqn:Eu; [by eexists|].
    destruct Hvalid. by exists o.
Qed.

Lemma ssl_without_appOptions_throws_witness :
  ssl {| origin := Some "https://shop.example"; trustProxy := None;
         ssl := Some true; configureServer := false |} = Some true
  ∧ createServer URL.parse {| ORIGIN := None; TRUST_PROXY := None |}
      (Some {| origin := Some "https://shop.example"; trustProxy := None;
               ssl := Some true; configureServer := false |}) None
    = ([], inl (Error "SSL requires appOptions"))
  ∧ createServer URL.parse {| ORIGIN := None; TRUST_PROXY := None |}
      (Some {| origin := Some "localhost"; trustProxy := None;
               ssl := Some true; configureServer := false |}) None
    = ([], inl TypeError_Invalid_URL).
Proof.
  split; [reflexivity|]. split.
  - apply (ssl_without_appOptions_throws URL.parse
             {| ORIGIN := None; TRUST_PROXY := None |}
             {| origin := Some "https://shop.example"; trustProxy := None;
                ssl := Some true; configureServer := false |} eq_refl).
    intros (o & Ho & _ & Hu). vm_compute in Ho. injection Ho as <-.
    vm_compute in Hu. discriminate Hu.
  - apply (ssl_without_appOptions_throws URL.parse
             {| ORIGIN := None; TRUST_PROXY := None |}
             {| origin := Some "localhost"; trustProxy := None;
                ssl := Some true; configureServer := false |} eq_refl).
    exists "localhost". repeat split; reflexivity.
Defined.

(** C10, as stated, fails when the origin is not a URL: [new URL] throws
    first, and the error is not [SSL requires appOptions]. *)
Lemma invalid_origin_throws_first :
  createServer URL.parse {| ORIGIN := None; TRUST_PROXY := None |}
    (Some {| origin := Some "not a url"; trustProxy := None;
             ssl := Some true; configureServer := false |}) None
  = ([], inl TypeError_Invalid_URL)
  ∧ (createServer URL.parse {| ORIGIN := None; TRUST_PROXY := None |}
       (Some {| origin := Some "not a url"; trustProxy := None;
                ssl := Some true; configureServer := false |}) None).2
    ≠ inl (Error "SSL requires appOptions").
Proof. split; [reflexivity|]. vm_compute. discriminate. Qed.

(** ** The peer address *)

Lemma append_nil_r (s : string) : s +:+ "" = s.
Proof.
  induction s as [|c s IH]; [done|].
  change (String c (s +:+ "") = String c s). by rewrite IH.
Qed.

Lemma append_truthy_l (s t : string) :
  JS.truthy s = true → JS.truthy (s +:+ t) = true.
Proof. by destruct s. Qed.

Lemma toString_truthy (n : N) : JS.truthy (JS.toString n) = true.
Proof.
  unfold JS.toString, DecimalString.NilZero.string_of_uint.
  by destruct (N.to_uint n).
Qed.

Lemma toString16_truthy (n : N) : JS.truthy (JS.toString16 n) = true.
Proof.
  unfold JS.toString16, HexadecimalString.NilZero.string_of_uint.
  by destruct (N.to_hex_uint n).
Qed.

Lemma byte_val_bounded (b : byte) : (byte_val b <= 255)%N.
Proof. apply Byte.to_N_bounded. Qed.

Lemma byte_val_0 (b : byte) : byte_val b = 0%N → b = x00.
Proof. destruct b; vm_compute; congruence. Qed.

Lemma byte_val_255 (b : byte) : byte_val b = 255%N → b = xff.
Proof. destruct b; vm_compute; congruence. Qed.

(** The test of [ipAddressBytesToString] for an IPv4-mapped address. *)
Lemma mapped_test_prefix (bytes : list byte) :
  length bytes = 16 →
  (getUint32 bytes 0 = Some 0%N
   ∧ getUint32 bytes 4 = Some 0%N
   ∧ getUint32 bytes 8 = Some 65535%N)
  ↔ take 12 bytes = ipv4_mapped_prefix.
Proof.
  intros Hlen.
  do 16 (destruct bytes as [|? bytes]; [discriminate Hlen|]).
  destruct bytes; [|discriminate Hlen]. clear Hlen.
  unfold getUint32, getUint16, getUint8, ipv4_mapped_prefix.
  cbn [lookup list_lookup fmap option_fmap option_map mbind option_bind
       take Nat.add].
  repeat match goal with
  | b : byte |- _ =>
      lazymatch goal with
      | _ : (byte_val b <= 255)%N |- _ => fail
      | _ => pose proof (byte_val_bounded b)
      end
  end.
  split.
  - intros (E0 & E4 & E8).
    injection E0 as E0. injection E4 as E4. injection E8 as E8.
    repeat f_equal;
      (apply byte_val_0 || apply byte_val_255); lia.
  - intros [= -> -> -> -> -> -> -> -> -> -> -> ->]. done.
Qed.

(** X1: a peer address of four bytes is written as a dotted quad: the four
    bytes in decimal, in order, with dots between them. *)
Theorem ipv4_dotted_quad (a b c d : byte) :
  ipAddressBytesToString [a; b; c; d]
  = JS.join "." (map (λ x, JS.toString (byte_val x)) [a; b; c; d]).
Proof.
  unfold ipAddressBytesToString.
  destruct (decide (_ ∧ _)) as [[Hlen _]|_]; [discriminate Hlen|].
  destruct (decide (length [a; b; c; d] = 4)) as [_|Hne]; [|done].
  cbn [dotted getUint8 lookup list_lookup fmap option_fmap option_map
       default from_option id JS.join String.concat map].
  rewrite !decide_True by lia. rewrite decide_False by lia.
  by rewrite append_nil_r.
Qed.

(** X2: an IPv4-mapped IPv6 address (ten zero bytes, [ff ff], then four
    bytes) is written as the plain IPv4 address of its last four bytes. *)
Theorem ipv4_mapped_as_ipv4 (a b c d : byte) :
  ipAddressBytesToString (ipv4_mapped_prefix ++ [a; b; c; d])
  = ipAddressBytesToString [a; b; c; d].
Proof.
  unfold ipAddressBytesToString.
  destruct (decide (length [a; b; c; d] = 16 ∧ _)) as [[Hlen _]|_];
    [discriminate Hlen|].
  destruct (decide (length (_ ++ _) = 16 ∧ _)) as [_|Hno]; [done|].
  destruct Hno. split; [done|]. by apply mapped_test_prefix.
Qed.

Lemma uint16_at (bytes : list byte) (i : nat) (hi lo : byte) :
  bytes !! i = Some hi → bytes !! (i + 1) = Some lo →
  getUint16 bytes i = Some (byte_val hi * 256 + byte_val lo)%N.
Proof. intros Hhi Hlo. unfold getUint16, getUint8. by rewrite Hhi, Hlo. Qed.

(** X3: any other address of sixteen bytes is written as its eight 16-bit
    groups in lower-case hexadecimal without leading zeros, in order, with
    colons between them. *)
Theorem ipv6_colon_hex (bytes : list byte) :
  length bytes = 16 →
  take 12 bytes ≠ ipv4_mapped_prefix →
  ipAddressBytesToString bytes
  = JS.join ":" (map JS.toString16 (uint16_groups bytes)).
Proof.
  intros Hlen Hplain. unfold ipAddressBytesToString.
  destruct (decide (_ ∧ _)) as [[_ Hm]|_];
    [by destruct Hplain; apply mapped_test_prefix|].
  destruct (decide (length bytes = 4)) as [H4|_]; [lia|].
  destruct (decide (length bytes = 16)) as [_|H16]; [|done].
  do 16 (destruct bytes as [|? bytes]; [discriminate Hlen|]).
  destruct bytes; [|discriminate Hlen].
  cbn [colon_hex uint16_groups map JS.join String.concat Nat.add].
  repeat (erewrite uint16_at by reflexivity).
  cbn [default from_option id].
  rewrite !decide_True by lia. rewrite decide_False by lia.
  by rewrite append_nil_r.
Qed.

Lemma ipv6_colon_hex_witness :
  length [x20; x01; x0d; xb8; x00; x00; x00; x00;
          x00; x00; x00; x00; x00; x00; x00; x01] = 16
  ∧ take 12 [x20; x01; x0d; xb8; x00; x00; x00; x00;
             x00; x00; x00; x00; x00; x00; x00; x01] ≠ ipv4_mapped_prefix
  ∧ ipAddressBytesToString
      [x20; x01; x0d; xb8; x00; x00; x00; x00;
       x00; x00; x00; x00; x00; x00; x00; x01]
    = "2001:db8:0:0:0:0:0:1".
Proof.
  split; [reflexivity|]. split; [discriminate|].
  apply (ipv6_colon_hex
           [x20; x01; x0d; xb8; x00; x00; x00; x00;
            x00; x00; x00; x00; x00; x00; x00; x01]);
    [reflexivity|discriminate].
Defined.

Lemma dotted_truthy (view : list byte) :
  JS.truthy (dotted view 0 4) = true.
Proof. cbn [dotted]. apply append_truthy_l, toString_truthy. Qed.

Lemma colon_hex_truthy (view : list byte) :
  JS.truthy (colon_hex view 0 8) = true.
Proof. cbn [colon_hex]. apply append_truthy_l, toString16_truthy. Qed.

Lemma address_truthy_iff (bytes : list byte) :
  JS.truthy (ipAddressBytesToString bytes) = true
  ↔ length bytes = 4 ∨ length bytes = 16.
Proof.
  unfold ipAddressBytesToString.
  destruct (decide (length bytes = 16 ∧ _)) as [[Hlen _]|Hno].
  - assert (Hd : length (drop 12 bytes) = 4)
      by (rewrite length_drop; lia).
    rewrite decide_True by done. split; [auto|]. intros _.
    apply dotted_truthy.
  - destruct (decide (length bytes = 4)) as [H4|H4].
    + split; [auto|]. intros _. apply dotted_truthy.
    + destruct (decide (length bytes = 16)) as [H16|H16].
      * split; [auto|]. intros _. apply colon_hex_truthy.
      * split; [done|]. intros [?|?]; contradiction.
Qed.

(** X4: the address string is empty exactly when the buffer has neither
    four nor sixteen bytes; in particular it is empty for an empty buffer. *)
Theorem address_string_nonempty_iff (bytes : list byte) :
  ipAddressBytesToString bytes ≠ ""
  ↔ length bytes = 4 ∨ length bytes = 16.
Proof.
  rewrite <- address_truthy_iff.
  by destruct (ipAddressBytesToString bytes).
Qed.

(** ** Forwarded headers and the origin of a request *)

Lemma before_comma_app (a b : string) :
  JS.before_comma (a +:+ String "," b) = JS.before_comma a.
Proof.
  induction a as [|c a IH]; [done|].
  change (JS.before_comma (String c (a +:+ String "," b))
          = JS.before_comma (String c a)).
  cbn [JS.before_comma]. by rewrite IH.
Qed.

Lemma before_comma_join (v : string) (vs : list string) :
  JS.before_comma (JS.join ", " (v :: vs)) = JS.before_comma v.
Proof.
  destruct vs as [|w vs]; [done|].
  change (JS.join ", " (v :: w :: vs))
    with (v +:+ String "," (String " " (JS.join ", " (w :: vs)))).
  apply before_comma_app.
Qed.

Lemma or_else_empty (s : string) : JS.or_else (Some s) "" = s.
Proof. by destruct s. Qed.

(** X5: a forwarded header gives its leftmost value: the text before the
    first comma of the first value stored under the name, trimmed; later
    values and later header lines of the same name are ignored, and an
    absent header gives the empty string. *)
Theorem forwarded_header_leftmost (h : Headers.t) (name : string) :
  getForwardedHeader h name
  = JS.trim
      (JS.before_comma
         (default "" (head (Headers.values ("x-forwarded-" +:+ name) h)))).
Proof.
  unfold getForwardedHeader, Headers.get.
  destruct (Headers.values _ h) as [|v vs]; [done|].
  cbn [head default from_option id].
  rewrite <- (before_comma_join v vs).
  set (joined := JS.join ", " (v :: vs)).
  by destruct joined.
Qed.

(** X6: the [ip] given to the handler is the leftmost [x-forwarded-for]
    value when [trustProxy] is on and that value is not empty; otherwise it
    is the peer address string, so that without [trustProxy] no header has
    any influence on it. *)
Theorem ip_of_request (srv : server) (req : HttpRequest) (addr : list byte) :
  r_ip (resolve srv req addr).1
  = (let forwarded :=
       getForwardedHeader (Headers.of_entries (forEach req)) "for" in
     if srv_trustProxy srv && JS.truthy forwarded then forwarded
     else ipAddressBytesToString addr).
Proof.
  unfold resolve. cbn [fst r_ip]. cbn zeta. rewrite or_else_empty.
  destruct (srv_trustProxy srv); [|done]. cbn [JS.and_then JS.or_else andb].
  by destruct (JS.truthy _).
Qed.

(** X7: as long as neither variable of the origin is set, the scheme is the
    leftmost [x-forwarded-proto] value if [trustProxy] is on and the value
    is not empty, else [https] with [ssl] and [http] without; the host is
    the first non-empty one of the leftmost [x-forwarded-host] value (with
    [trustProxy] only), the [host] header, the peer address string and
    [localhost]. *)
Theorem origin_precedence (srv : server) (req : HttpRequest)
    (addr : list byte) :
  protocol srv = None → host srv = None →
  let headers := Headers.of_entries (forEach req) in
  r_protocol (resolve srv req addr).1
  = (let forwarded := getForwardedHeader headers "proto" in
     if srv_trustProxy srv && JS.truthy forwarded then forwarded
     else if srv_ssl srv then "https" else "http")
  ∧ r_host (resolve srv req addr).1
    = (let forwarded := getForwardedHeader headers "host" in
       if srv_trustProxy srv && JS.truthy forwarded then forwarded
       else
         match Headers.get "host" headers with
         | Some h => if JS.truthy h then h
                     else if JS.truthy (ipAddressBytesToString addr)
                          then ipAddressBytesToString addr else "localhost"
         | None => if JS.truthy (ipAddressBytesToString addr)
                   then ipAddressBytesToString addr else "localhost"
         end).
Proof.
  intros Hp Hh headers. unfold resolve. cbn [fst r_protocol r_host].
  cbn zeta. fold headers. rewrite Hp, Hh. cbn [JS.or_else]. split.
  - destruct (srv_trustProxy srv); cbn [JS.and_then JS.or_else andb].
    + destruct (JS.truthy (getForwardedHeader headers "proto")); [done|].
      by destruct (srv_ssl srv).
    + by destruct (srv_ssl srv).
  - destruct (srv_trustProxy srv); cbn [JS.and_then JS.or_else andb].
    + destruct (JS.truthy (getForwardedHeader headers "host")) eqn:Tf.
      * by rewrite Tf.
      * destruct (Headers.get "host" headers) as [hh|]; cbn [JS.or_else].
        -- destruct (JS.truthy hh) eqn:Th; [by rewrite Th|].
           by destruct (JS.truthy (ipAddressBytesToString addr)).
        -- by destruct (JS.truthy (ipAddressBytesToString addr)).
    + destruct (Headers.get "host" headers) as [hh|]; cbn [JS.or_else].
      * destruct (JS.truthy hh) eqn:Th; [by rewrite Th|].
        by destruct (JS.truthy (ipAddressBytesToString addr)).
      * by destruct (JS.truthy (ipAddressBytesToString addr)).
Qed.

Lemma origin_precedence_witness :
  protocol plain_server = None ∧ host plain_server = None
  ∧ origin_of
      (resolve plain_server (get_request []) [xc0; xa8; x00; x07]).1
    = ("http", "192.168.0.7").
Proof.
  split; [reflexivity|]. split; [reflexivity|].
  destruct (origin_precedence plain_server (get_request [])
              [xc0; xa8; x00; x07] eq_refl eq_refl) as [Hp Hh].
  unfold origin_of. rewrite Hp, Hh. reflexivity.
Defined.

(** X8: the scheme and the host of the URL given to the handler are never
    empty, whatever the request, the peer address and the configuration. *)
Theorem resolved_origin_nonempty (srv : server) (req : HttpRequest)
    (addr : list byte) :
  r_protocol (resolve srv req addr).1 ≠ ""
  ∧ r_host (resolve srv req addr).1 ≠ "".
Proof.
  destruct (resolved_origin_truthy srv req addr) as [Tp Th].
  split; intros E; [rewrite E in Tp|rewrite E in Th]; discriminate.
Qed.

(** X9: when the peer address has four or sixteen bytes, a host is always
    found: the callback does not warn and does not fall back to
    [localhost]. *)
Theorem known_peer_no_warning (srv : server) (req : HttpRequest)
    (addr : list byte) :
  length addr = 4 ∨ length addr = 16 →
  r_warned (resolve srv req addr).1 = false.
Proof.
  intros Hlen. apply address_truthy_iff in Hlen.
  unfold resolve. cbn [fst r_warned]. cbn zeta.
  by rewrite (or_else_truthy _ _ (or_else_truthy _ _
               (or_else_truthy _ _ Hlen))).
Qed.

Lemma known_peer_no_warning_witness :
  (length [x7f; x00; x00; x01] = 4 ∨ length [x7f; x00; x00; x01] = 16)
  ∧ r_warned (resolve plain_server (get_request []) [x7f; x00; x00; x01]).1
    = false.
Proof.
  split; [left; reflexivity|].
  apply (known_peer_no_warning plain_server (get_request [])
           [x7f; x00; x00; x01]).
  left. reflexivity.
Defined.

(** ** What [createServer] returns *)


Section CreateServerMore.

Variable new_URL : string → option (string * string).

(** X10: [createServer] throws before it has created an app exactly when
    the origin in effect is a non-empty string that is not a URL, or [ssl]
    is set and no [appOptions] is given.  What the engine or the
    [configureServer] callback may throw comes after the app is created and
    is not covered. *)
Theorem createServer_throws_iff (env : ProcessEnv)
    (adapterOptions : option UWebSocketAdapterOptions)
    (appOptions : option AppOptions) :
  (∃ e, createServer new_URL env adapterOptions appOptions = ([], inl e))
  ↔ origin_is_invalid new_URL env adapterOptions
    ∨ (ssl_in_effect adapterOptions = true ∧ appOptions = None).
Proof.
  unfold createServer, origin_is_invalid, ssl_in_effect.
  destruct (origin_in_effect env adapterOptions) as [o|] eqn:Eo;
    cbn [default from_option id].
  - destruct (JS.truthy o) eqn:To.
    + destruct (new_URL o) as [[p h]|] eqn:Eu.
      * destruct (default false (adapterOptions ≫= ssl)),
          appOptions as [ao|]; cbn [snd]; split;
          try (intros [e [=]]); try (intros [(o' & [= <-] & _ & E)|[[=] [=]]]);
          try congruence; try (by eexists); try (right; done).
      * split; [|by eexists]. intros _. left. by exists o.
    + destruct (default false (adapterOptions ≫= ssl)),
        appOptions as [ao|]; cbn [snd]; split;
        try (intros [e [=]]); try (intros [(o' & [= <-] & E & _)|[[=] [=]]]);
        try congruence; try (by eexists); try (right; done).
  - destruct (default false (adapterOptions ≫= ssl)),
      appOptions as [ao|]; cbn [snd]; split;
      try (intros [e [=]]); try (intros [(o' & [=] & _)|[[=] [=]]]);
      try congruence; try (by eexists); try (right; done).
Qed.

(** X11: when [createServer] returns, it has created exactly one app, an
    SSL app if and only if [ssl] is set, then run the [configureServer]
    callback if there is one, and last registered the handler on the route
    [/*]; [trustProxy] is the option if given, else whether [TRUST_PROXY]
    is [1]. *)
Theorem createServer_returns (env : ProcessEnv)
    (adapterOptions : option UWebSocketAdapterOptions)
    (appOptions : option AppOptions) (calls : list app_call) (srv : server) :
  createServer new_URL env adapterOptions appOptions = (calls, inr srv) →
  calls
  = match appOptions with
    | Some o => if srv_ssl srv then Call_SSLApp o else Call_App (Some o)
    | None => Call_App None
    end
    :: (if default false (configureServer <$> adapterOptions)
        then [Call_configureServer] else [])
    ++ [Call_any "/*"]
  ∧ srv_ssl srv = ssl_in_effect adapterOptions
  ∧ srv_trustProxy srv
    = match adapterOptions ≫= trustProxy with
      | Some b => b
      | None => bool_decide (TRUST_PROXY env = Some "1")
      end.
Proof.
  unfold createServer, ssl_in_effect.
  destruct (if JS.truthy _ then _ else _) as [e|[protocol0 host0]];
    [discriminate|].
  destruct (default false (adapterOptions ≫= ssl)), appOptions as [ao|];
    intros [= <- <-]; cbn [srv_ssl srv_trustProxy];
    by destruct adapterOptions.
Qed.


End CreateServerMore.


Lemma createServer_returns_witness :
  createServer URL.parse {| ORIGIN := None; TRUST_PROXY := Some "1" |}
    (Some {| origin := None; trustProxy := None; ssl := Some true;
             configureServer := true |})
    (Some {| key_file_name := "key.pem"; cert_file_name := "cert.pem" |})
  = ([Call_SSLApp {| key_file_name := "key.pem";
                     cert_file_name := "cert.pem" |};
      Call_configureServer; Call_any "/*"],
     inr {| srv_trustProxy := true; srv_ssl := true;
            protocol := None; host := None |})
  ∧ srv_trustProxy {| srv_trustProxy := true; srv_ssl := true;
                      protocol := None; host := None |} = true.
Proof.
  split; [reflexivity|].
  apply (createServer_returns URL.parse
           {| ORIGIN := None; TRUST_PROXY := Some "1" |}
           (Some {| origin := None; trustProxy := None; ssl := Some true;
                    configureServer := true |})
           (Some {| key_file_name := "key.pem";
                    cert_file_name := "cert.pem" |})
           [Call_SSLApp {| key_file_name := "key.pem";
                           cert_file_name := "cert.pem" |};
            Call_configureServer; Call_any "/*"]
           {| srv_trustProxy := true; srv_ssl := true;
              protocol := None; host := None |} eq_refl).
Defined.

(** ** The calls of the response writer *)

(** What the loop over the body calls when the stream ends: a [write] for
    every chunk but the last, and [end] with the last. *)
Lemma stream_body_ends (when : abort_time) (init : list Uint8Array)
    (final : Uint8Array) :
  ∀ (k : nat) (lastChunk : option Uint8Array) (c : conn),
    res_calls
      (timeline (stream_body when k (init ++ [final]) None lastChunk c).1)
    = res_calls (timeline c)
      ++ map write (with_held lastChunk init) ++ [end_ (Some final)].
Proof.
  induction init as [|chunk init IH]; intros k lastChunk c.
  - cbn [app stream_body fst].
    destruct lastChunk as [held|]; cbn [with_held map app];
      rewrite !res_calls_record, !res_calls_await_pull, ?res_calls_record,
        ?res_calls_await_pull; cbn [calls_of];
      by rewrite <- ?app_assoc.
  - change ((chunk :: init) ++ [final]) with (chunk :: (init ++ [final])).
    cbn [stream_body]. rewrite IH.
    destruct lastChunk as [held|]; cbn [with_held map app];
      rewrite ?res_calls_record, res_calls_await_pull; cbn [calls_of];
      by rewrite <- ?app_assoc.
Qed.

(** What the loop calls when the stream throws: a [write] for every chunk
    but the last one it got, which it still holds. *)
Lemma stream_body_fails (when : abort_time) (rest : list Uint8Array)
    (e : string) :
  ∀ (k : nat) (lastChunk : option Uint8Array) (c : conn),
    res_calls
      (timeline (stream_body when k rest (Some e) lastChunk c).1)
    = res_calls (timeline c)
      ++ map write (removelast (with_held lastChunk rest))
    ∧ (stream_body when k rest (Some e) lastChunk c).2 = Some e.
Proof.
  induction rest as [|chunk rest IH]; intros k lastChunk c.
  - cbn [stream_body fst snd]. rewrite res_calls_await_pull.
    destruct lastChunk; cbn [with_held removelast map];
      by rewrite app_nil_r.
  - cbn [stream_body]. destruct (IH (S k) (Some chunk)
      match lastChunk with
      | Some held => record (Cork [write held]) (await_pull when k c)
      | None => await_pull when k c
      end) as [-> ->]. split; [|done].
    destruct lastChunk as [held|]; cbn [with_held];
      rewrite ?res_calls_record, res_calls_await_pull; cbn [calls_of].
    + rewrite <- app_assoc. done.
    + done.
Qed.

Lemma filter_writes (cs : list Uint8Array) :
  filter (λ c, is_body_call c) (map write cs) = map write cs.
Proof.
  induction cs as [|chunk cs IH]; [done|].
  cbn [map]. rewrite filter_cons_True by done. by rewrite IH.
Qed.

Lemma finish_head (when : abort_time) (response : Response)
    (method : string) :
  ∃ c, res_calls (timeline c) = head_calls response
       ∧ aborted c = false
       ∧ finish when response (open_connection method)
         = match body response with
           | Some b => stream_body when 0 (chunks b) (failure b) None c
           | None => (c, None)
           end.
Proof.
  exists (record (Cork (head_calls response)) (open_connection method)).
  split; [|done]. rewrite res_calls_record. done.
Qed.


(** X15: when the body stream throws and no abort has come, every chunk
    but the last one yielded has been written, the last one is dropped, and
    [handleError] then writes the status [500 Internal Server Error] and
    ends the response with no body. *)
Theorem failing_body_stream (code : N) (text : string) (h : Headers.t)
    (yielded : list Uint8Array) (e : string) (method : string) :
  res_calls
    (timeline
       (finish_or_handleError never
          {| status := code; statusText := text; headers := h;
             body := Some {| chunks := yielded; failure := Some e |} |}
          (open_connection method)))
  = writeStatus
      (status_line
         {| status := code; statusText := text; headers := h;
            body := Some {| chunks := yielded; failure := Some e |} |})
    :: header_calls h
    ++ map write (removelast yielded)
    ++ [writeStatus "500 Internal Server Error"; end_ None].
Proof.
  unfold finish_or_handleError.
  destruct (finish_head never
              {| status := code; statusText := text; headers := h;
                 body := Some {| chunks := yielded; failure := Some e |} |}
              method) as (c & Hc & Hab & ->).
  cbn [body chunks failure].
  destruct (stream_body_fails never yielded e 0 None c) as [Hcalls Hres].
  assert (Hab' : aborted (stream_body never 0 yielded (Some e) None c).1
                 = false).
  { clear Hcalls Hres Hc. revert Hab. generalize 0 (@None Uint8Array) c.
    induction yielded as [|chunk yielded IH]; intros k lastChunk c' Hab;
      cbn [stream_body await_pull fst]; [done|].
    apply IH. by destruct lastChunk. }
  destruct (stream_body never 0 yielded (Some e) None c) as [c' r].
  cbn [fst snd] in *. subst r.
  unfold handleError. rewrite Hab'. rewrite !res_calls_record.
  cbn [calls_of]. rewrite app_nil_r, Hcalls, Hc.
  unfold head_calls. cbn [body headers with_held].
  rewrite app_nil_r, <- !app_assoc. done.
Qed.

Lemma filter_end_writes (cs : list Uint8Array) :
  filter (λ c, is_end c) (map write cs) = [].
Proof.
  induction cs as [|chunk cs IH]; [done|].
  cbn [map]. by rewrite filter_cons_False by (simpl; tauto).
Qed.

Lemma end_only_last_app (pre cs : list res_call) :
  filter (λ c, is_end c) pre = [] →
  end_only_last (pre ++ cs) = end_only_last cs.
Proof.
  induction pre as [|c pre IH]; [done|].
  destruct (is_end c) eqn:Ec.
  - rewrite filter_cons_True by (simpl; rewrite Ec; simpl; tauto). discriminate.
  - rewrite filter_cons_False by (simpl; rewrite Ec; simpl; tauto). intros Hpre.
    cbn [app end_only_last]. rewrite Ec. by apply IH.
Qed.

(** The calls of the loop over the body: some [write] calls, then at most
    one [end], and none when the stream throws. *)
Lemma stream_body_shape (when : abort_time) (rest : list Uint8Array)
    (failure : option string) (k : nat) (lastChunk : option Uint8Array)
    (c : conn) :
  ∃ ws tail,
    res_calls
      (timeline (stream_body when k rest failure lastChunk c).1)
    = res_calls (timeline c) ++ map write ws ++ tail
    ∧ (tail = [] ∨ (∃ x, tail = [end_ x])
                   ∧ (stream_body when k rest failure lastChunk c).2 = None).
Proof.
  destruct failure as [e|].
  - destruct (stream_body_fails when rest e k lastChunk c) as [-> _].
    exists (removelast (with_held lastChunk rest)), [].
    rewrite app_nil_r. auto.
  - destruct rest as [|chunk rest _] using rev_ind.
    + cbn [stream_body fst snd]. destruct lastChunk as [held|].
      * exists [], [end_ (Some held)].
        rewrite res_calls_record, res_calls_await_pull. eauto.
      * exists [], []. rewrite res_calls_await_pull, app_nil_r. auto.
    + rewrite stream_body_ends.
      exists (with_held lastChunk rest), [end_ (Some chunk)].
      split; [done|]. right. split; [by eexists|].
      clear. revert k lastChunk c.
      induction rest as [|x rest IH]; intros k lastChunk c; [done|].
      change ((x :: rest) ++ [chunk]) with (x :: (rest ++ [chunk])).
      cbn [stream_body]. apply IH.
Qed.

Lemma finish_from (when : abort_time) (response : Response) (c : conn) :
  aborted c = false →
  ∃ c', res_calls (timeline c')
        = res_calls (timeline c) ++ head_calls response
        ∧ finish when response c
          = match body response with
            | Some b => stream_body when 0 (chunks b) (failure b) None c'
            | None => (c', None)
            end.
Proof.
  intros Hab. exists (record (Cork (head_calls response)) c).
  split; [by rewrite res_calls_record|]. unfold finish. by rewrite Hab.
Qed.

Lemma handleError_calls (e : string) (c : conn) :
  res_calls (timeline (handleError e c))
  = res_calls (timeline c)
    ++ (if aborted c then []
        else [writeStatus "500 Internal Server Error"; end_ None]).
Proof.
  unfold handleError. destruct (aborted c); [by rewrite app_nil_r|].
  rewrite !res_calls_record. cbn [calls_of].
  by rewrite app_nil_r, <- app_assoc.
Qed.

Lemma finish_or_handleError_ends_last (when : abort_time)
    (response : Response) (c : conn) :
  res_calls (timeline c) = [] →
  end_only_last (res_calls (timeline (finish_or_handleError when response c)))
  = true.
Proof.
  intros Hc. unfold finish_or_handleError.
  destruct (aborted c) eqn:Hab.
  { rewrite finish_aborted by done. by rewrite Hc. }
  destruct (finish_from when response c Hab) as (c' & Hc' & ->).
  rewrite Hc in Hc'. cbn [app] in Hc'. unfold head_calls in Hc'.
  destruct (body response) as [b|].
  - rewrite app_nil_r in Hc'.
    destruct (stream_body_shape when (chunks b) (failure b) 0 None c')
      as (ws & tail & Hcalls & Htail).
    assert (Hpre : filter (λ c, is_end c)
                     (writeStatus (status_line response)
                        :: header_calls (headers response) ++ map write ws)
                   = []).
    { rewrite filter_cons_False by (simpl; tauto).
      rewrite filter_app, header_calls_filter by done.
      apply filter_end_writes. }
    rewrite Hc' in Hcalls.
    assert (E : res_calls
                  (timeline
                     (stream_body when 0 (chunks b) (failure b) None c').1)
                = (writeStatus (status_line response)
                     :: header_calls (headers response) ++ map write ws)
                  ++ tail).
    { rewrite Hcalls. cbn [app]. by rewrite app_assoc. }
    clear Hcalls.
    destruct (stream_body when 0 (chunks b) (failure b) None c')
      as [c'' [e|]]; cbn [fst snd] in *.
    + destruct Htail as [->|[_ [=]]].
      rewrite handleError_calls, E, <- app_assoc.
      rewrite (end_only_last_app _ _ Hpre). by destruct (aborted c'').
    + rewrite E, (end_only_last_app _ _ Hpre).
      by destruct Htail as [->|[[x ->] _]].
  - cbn [fst]. rewrite Hc', app_comm_cons.
    rewrite end_only_last_app; [done|].
    rewrite filter_cons_False by (simpl; tauto).
    by apply header_calls_filter.
Qed.

(** X16: whatever the handler does and whenever the abort comes, the
    response of a request is completed at most once and nothing is called
    on [res] after it: the calls hold no [end], or exactly one, which is
    the last call. *)
Theorem response_ended_once_and_last (handler : HattipHandler)
    (when : abort_time) (srv : server) (req : HttpRequest)
    (addr : list byte) :
  end_only_last
    (res_calls (timeline (on_request handler when srv req addr).1))
  = true.
Proof.
  rewrite on_request_unfold. cbn zeta.
  set (c := await_handler when _).
  assert (Hc : res_calls (timeline c) = []).
  { subst c. unfold opening.
    destruct when; cbn [await_handler]; rewrite ?res_calls_onAborted;
      cbn [timeline]; by destruct (r_warned _). }
  destruct (handler _) as [response|e|response|e].
  - by apply finish_or_handleError_ends_last.
  - rewrite handleError_calls, Hc. by destruct (aborted c).
  - by apply finish_or_handleError_ends_last.
  - rewrite handleError_calls, Hc. by destruct (aborted c).
Qed.

(** X17: with no abort before the writer starts, a header line is written
    for a name exactly when the response has a header of that name: no
    header is invented and none is left out. *)
Theorem header_written_iff_present (code : N) (text : string)
    (init : list (string * string)) (content : option Body)
    (when : abort_time) (method name : string) :
  (∃ value,
     writeHeader name value
     ∈ res_calls
         (timeline
            (finish when
               {| status := code; statusText := text;
                  headers := Headers.of_entries init; body := content |}
               (open_connection method)).1))
  ↔ name ∈ (Headers.of_entries init).*1.
Proof.
  set (h := Headers.of_entries init).
  set (response := {| status := code; statusText := text; headers := h;
                      body := content |}).
  assert (Hlines : ∀ value,
    writeHeader name value
    ∈ res_calls (timeline (finish when response (open_connection method)).1)
    ↔ writeHeader name value ∈ lines_named name (header_calls h)).
  { intros value.
    pose proof (lines_named_finish when response method name) as Hf.
    change (headers response) with h in Hf. rewrite <- Hf.
    unfold lines_named. rewrite list_elem_of_filter. cbn [header_name].
    tauto. }
  split.
  - intros [value Hin]. apply Hlines in Hin.
    unfold lines_named in Hin. apply list_elem_of_filter in Hin as [_ Hin].
    unfold header_calls in Hin.
    apply list_elem_of_In, in_flat_map in Hin as (m & Hm & Hin).
    apply list_elem_of_In in Hm, Hin.
    apply emit_header_named in Hin. injection Hin as <-.
    by apply HeadersFacts.elem_of_Set_of, HeadersFacts.elem_of_keys in Hm.
  - intros Hin. pose proof (header_calls_of_name init name Hin) as Hl.
    pose proof (HeadersFacts.values_stored name init Hin) as Hv.
    fold h in Hl, Hv.
    destruct (Headers.values name h) as [|v vs] eqn:Ev; [done|].
    destruct (decide (name = "set-cookie")).
    + exists v. apply Hlines. rewrite Hl. cbn [map]. apply list_elem_of_here.
    + eexists. apply Hlines. rewrite Hl. apply list_elem_of_here.
Qed.

(** ** The chunks of the request body *)

Lemma onData_refused (chunk : Uint8Array) (isLast : bool) (c : conn)
    (s : ReadableStream.t) :
  request_body c = Some s →
  ReadableStream.can_close_or_enqueue s = false →
  onData chunk isLast c = c.
Proof.
  intros Hb Hcan. unfold onData, ReadableStream.enqueue.
  by rewrite Hb, Hcan.
Qed.

Lemma onData_taken (chunk : Uint8Array) (isLast : bool) (c : conn)
    (s : ReadableStream.t) :
  request_body c = Some s →
  ReadableStream.can_close_or_enqueue s = true →
  request_body (onData chunk isLast c)
  = Some {| ReadableStream.queue := ReadableStream.queue s ++ [chunk];
            ReadableStream.closeRequested := isLast;
            ReadableStream.st := ReadableStream.readable |}.
Proof.
  intros Hb Hcan. unfold onData, ReadableStream.enqueue.
  rewrite Hb, Hcan. cbn [request_body].
  unfold ReadableStream.can_close_or_enqueue in Hcan.
  destruct (ReadableStream.closeRequested s) eqn:Ecr; [done|].
  destruct (ReadableStream.st s) eqn:Est; try done.
  destruct isLast; [|done].
  unfold ReadableStream.close, ReadableStream.can_close_or_enqueue.
  cbn [ReadableStream.closeRequested ReadableStream.st
       ReadableStream.queue negb andb].
  destruct (ReadableStream.queue s ++ [chunk]) eqn:Eq; [|done].
  symmetry in Eq. by apply app_cons_not_nil in Eq.
Qed.

Lemma read_body_stream (c : conn) (s : ReadableStream.t) :
  request_body c = Some s →
  (read_body c).1 = Some (ReadableStream.read s).1
  ∧ request_body (read_body c).2 = Some (ReadableStream.read s).2.
Proof.
  intros Hb. unfold read_body. rewrite Hb.
  by destruct (ReadableStream.read s).
Qed.

(** A read takes the first chunk of the queue, or leaves the stream as it
    is. *)
Lemma read_step (s : ReadableStream.t) :
  match (ReadableStream.read s).1 with
  | ReadableStream.value x =>
      ReadableStream.queue s = x :: ReadableStream.queue (ReadableStream.read s).2
      ∧ ReadableStream.can_close_or_enqueue (ReadableStream.read s).2
        = ReadableStream.can_close_or_enqueue s
  | _ => (ReadableStream.read s).2 = s
  end.
Proof.
  unfold ReadableStream.read, ReadableStream.can_close_or_enqueue.
  destruct (ReadableStream.st s) eqn:Est; [|done|done].
  destruct (ReadableStream.queue s) as [|x [|y q]] eqn:Eq; cbn [fst snd].
  - done.
  - by destruct (ReadableStream.closeRequested s).
  - done.
Qed.

(** The reads return chunks of the queue, then chunks delivered later, in
    order. *)
Lemma reads_prefix (acts : list body_action) :
  ∀ c, values_read (run_body acts c).1 `prefix_of` still_to_read c acts.
Proof.
  induction acts as [|[chunk isLast| |] acts IH]; intros c.
  - apply prefix_nil.
  - cbn [run_body]. etrans; [apply IH|].
    unfold still_to_read at 2.
    destruct (request_body c) as [s|] eqn:Eb.
    + destruct (ReadableStream.can_close_or_enqueue s) eqn:Ecan.
      * unfold still_to_read.
        rewrite (onData_taken chunk isLast c s Eb Ecan).
        unfold ReadableStream.can_close_or_enqueue.
        cbn [ReadableStream.queue ReadableStream.closeRequested
             ReadableStream.st delivered].
        destruct isLast; cbn [negb andb]; by rewrite <- app_assoc.
      * rewrite (onData_refused chunk isLast c s Eb Ecan).
        unfold still_to_read. by rewrite Eb, Ecan.
    + unfold still_to_read, onData. by rewrite Eb, Eb.
  - cbn [run_body delivered]. apply IH.
  - cbn [run_body delivered]. specialize (IH (read_body c).2).
    destruct (request_body c) as [s|] eqn:Eb.
    + destruct (read_body_stream c s Eb) as [Hr Hb'].
      pose proof (read_step s) as Hstep.
      unfold still_to_read in *. rewrite Eb. rewrite Hb' in IH.
      destruct (read_body c) as [r c1]. cbn [fst snd] in *. subst r.
      destruct (run_body acts c1) as [rs c2]. cbn [fst] in *.
      destruct (ReadableStream.read s).1 as [x| | |];
        cbn [values_read omap] in *;
        try (by rewrite Hstep in IH).
      destruct Hstep as [-> <-]. cbn [app]. by apply prefix_cons.
    + unfold still_to_read, read_body in *. rewrite Eb in *.
      cbn [fst snd] in IH. rewrite Eb in IH.
      destruct (run_body acts c) as [rs c2]. exact IH.
Qed.

(** X18: the chunks a consumer reads from the request body are the chunks
    the engine delivered, in the order of delivery, with none repeated,
    left out in the middle or invented, and none delivered after the one
    flagged as the last: they are a prefix of the delivered chunks,
    whenever the reads are made and whether or not an abort comes. *)
Theorem body_chunks_in_order (method : string) (acts : list body_action) :
  values_read (run_body acts (open_connection method)).1
  `prefix_of` delivered acts.
Proof.
  etrans; [apply reads_prefix|].
  unfold still_to_read, open_connection. cbn [request_body].
  destruct (_ || _); [apply prefix_nil|]. done.
Qed.

Lemma stream_wf_open (method : string) : stream_wf (open_connection method).
Proof.
  unfold stream_wf, open_connection. cbn [request_body].
  destruct (_ || _); [done|]. by intros s [= <-].
Qed.

Lemma stream_wf_onData (chunk : Uint8Array) (isLast : bool) (c : conn) :
  stream_wf c → stream_wf (onData chunk isLast c).
Proof.
  intros Hwf s' Hs'.
  destruct (request_body c) as [s|] eqn:Eb;
    [|by unfold onData in Hs'; rewrite Eb in Hs'; rewrite Eb in Hs'].
  destruct (ReadableStream.can_close_or_enqueue s) eqn:Ecan.
  - rewrite (onData_taken chunk isLast c s Eb Ecan) in Hs'.
    injection Hs' as <-. unfold stream_ok.
    cbn [ReadableStream.st ReadableStream.queue
         ReadableStream.closeRequested].
    intros _ E. symmetry in E. by apply app_cons_not_nil in E.
  - rewrite (onData_refused chunk isLast c s Eb Ecan) in Hs'.
    by apply Hwf.
Qed.

Lemma stream_ok_read (s : ReadableStream.t) :
  stream_ok s → stream_ok (ReadableStream.read s).2.
Proof.
  unfold stream_ok, ReadableStream.read.
  destruct (ReadableStream.st s) eqn:Est; try (cbn [snd]; by rewrite Est).
  destruct (ReadableStream.queue s) as [|x [|y q]] eqn:Eq; cbn [snd].
  - by rewrite Est, Eq.
  - by destruct (ReadableStream.closeRequested s).
  - done.
Qed.

Lemma stream_wf_read_body (c : conn) : stream_wf c → stream_wf (read_body c).2.
Proof.
  intros Hwf s' Hs'.
  destruct (request_body c) as [s|] eqn:Eb.
  - destruct (read_body_stream c s Eb) as [_ Hb']. rewrite Hb' in Hs'.
    injection Hs' as <-. by apply stream_ok_read, Hwf.
  - unfold read_body in Hs'. rewrite Eb in Hs'. cbn [snd] in Hs'.
    by rewrite Eb in Hs'.
Qed.

Lemma stream_wf_run_body (acts : list body_action) :
  ∀ c, stream_wf c → stream_wf (run_body acts c).2.
Proof.
  induction acts as [|[chunk isLast| |] acts IH]; intros c Hwf;
    cbn [run_body].
  - done.
  - by apply IH, stream_wf_onData.
  - by apply IH.
  - pose proof (stream_wf_read_body c Hwf) as Hwf'.
    destruct (read_body c) as [r c1]. specialize (IH c1 Hwf').
    by destruct (run_body acts c1).
Qed.

Lemma run_body_app_state (acts1 acts2 : list body_action) :
  ∀ c, (run_body (acts1 ++ acts2) c).2
       = (run_body acts2 (run_body acts1 c).2).2.
Proof.
  induction acts1 as [|[chunk isLast| |] acts1 IH]; intros c;
    cbn [app run_body]; try done.
  destruct (read_body c) as [r c1]. specialize (IH c1).
  by destruct (run_body (acts1 ++ acts2) c1), (run_body acts1 c1).
Qed.

Lemma closing_after_last (chunk : Uint8Array) (c : conn) :
  stream_wf c → closing (onData chunk true c).
Proof.
  intros Hwf s' Hs'.
  destruct (request_body c) as [s|] eqn:Eb;
    [|by unfold onData in Hs'; rewrite Eb in Hs'; rewrite Eb in Hs'].
  destruct (ReadableStream.can_close_or_enqueue s) eqn:Ecan.
  - rewrite (onData_taken chunk true c s Eb Ecan) in Hs'.
    injection Hs' as <-. right.
    cbn [ReadableStream.st ReadableStream.queue
         ReadableStream.closeRequested].
    split; [done|]. split; [done|].
    intros E. symmetry in E. by apply app_cons_not_nil in E.
  - rewrite (onData_refused chunk true c s Eb Ecan) in Hs'.
    rewrite Eb in Hs'. injection Hs' as <-.
    specialize (Hwf s Eb). unfold stream_ok in Hwf.
    unfold ReadableStream.can_close_or_enqueue in Ecan.
    destruct (ReadableStream.st s); [|by left|done].
    destruct (ReadableStream.closeRequested s); [|done].
    right. auto.
Qed.

Lemma closing_onData (chunk : Uint8Array) (isLast : bool) (c : conn) :
  closing c → closing (onData chunk isLast c).
Proof.
  intros Hcl s' Hs'.
  destruct (request_body c) as [s|] eqn:Eb;
    [|by unfold onData in Hs'; rewrite Eb in Hs'; rewrite Eb in Hs'].
  assert (Ecan : ReadableStream.can_close_or_enqueue s = false).
  { unfold ReadableStream.can_close_or_enqueue.
    destruct (Hcl s Eb) as [->|(-> & -> & _)]; [|done].
    apply andb_false_r. }
  rewrite (onData_refused chunk isLast c s Eb Ecan) in Hs'.
  by apply Hcl.
Qed.

Lemma closing_read_body (c : conn) :
  closing c →
  (read_body c).1 ≠ Some ReadableStream.pending ∧ closing (read_body c).2.
Proof.
  intros Hcl. destruct (request_body c) as [s|] eqn:Eb.
  - destruct (read_body_stream c s Eb) as [-> Hb'].
    assert (Hs : (ReadableStream.read s).1 ≠ ReadableStream.pending
                 ∧ ∀ s', (ReadableStream.read s).2 = s' →
                     ReadableStream.st s' = ReadableStream.closed
                     ∨ ReadableStream.st s' = ReadableStream.readable
                       ∧ ReadableStream.closeRequested s' = true
                       ∧ ReadableStream.queue s' ≠ []).
    { unfold ReadableStream.read.
      destruct (Hcl s Eb) as [Est|(Est & Ecr & Eq)]; rewrite Est.
      - split; [done|]. intros s' <-. by left.
      - destruct (ReadableStream.queue s) as [|x [|y q]]; [done| |];
          rewrite ?Ecr; cbn [fst snd]; (split; [done|]); intros s' <-.
        + by left.
        + right. by cbn. }
    destruct Hs as [Hr Hs]. split; [congruence|].
    intros s' Hs'. rewrite Hb' in Hs'. injection Hs' as <-. by apply Hs.
  - unfold read_body. rewrite Eb. cbn [fst snd]. split; [done|].
    intros s Hs. by rewrite Eb in Hs.
Qed.

Lemma closing_no_pending (acts : list body_action) :
  ∀ c, closing c → ReadableStream.pending ∉ (run_body acts c).1.
Proof.
  induction acts as [|[chunk isLast| |] acts IH]; intros c Hcl;
    cbn [run_body].
  - apply not_elem_of_nil.
  - by apply IH, closing_onData.
  - by apply IH.
  - destruct (closing_read_body c Hcl) as [Hr Hcl'].
    destruct (read_body c) as [r c1]. cbn [fst snd] in *.
    specialize (IH c1 Hcl').
    destruct (run_body acts c1) as [rs c2]. cbn [fst] in *.
    destruct r as [r|]; [|done].
    rewrite not_elem_of_cons. split; [congruence|done].
Qed.

(** X19: once the engine has delivered a chunk flagged as the last, no
    read of the request body stays pending: every later read returns a
    chunk that is left or the end of the stream. *)
Theorem no_pending_after_last_chunk (method : string)
    (before : list body_action) (chunk : Uint8Array)
    (after : list body_action) :
  ReadableStream.pending
  ∉ (run_body after
       (run_body (before ++ [Data chunk true])
          (open_connection method)).2).1.
Proof.
  apply closing_no_pending. rewrite run_body_app_state.
  cbn [run_body snd]. apply closing_after_last, stream_wf_run_body,
    stream_wf_open.
Qed.

Lemma still_to_read_onData (chunk : Uint8Array) (isLast : bool) (c : conn)
    (acts : list body_action) :
  still_to_read (onData chunk isLast c) acts
  = still_to_read c (Data chunk isLast :: acts).
Proof.
  unfold still_to_read at 2.
  destruct (request_body c) as [s|] eqn:Eb.
  - destruct (ReadableStream.can_close_or_enqueue s) eqn:Ecan.
    + unfold still_to_read.
      rewrite (onData_taken chunk isLast c s Eb Ecan).
      unfold ReadableStream.can_close_or_enqueue.
      cbn [ReadableStream.queue ReadableStream.closeRequested
           ReadableStream.st delivered].
      destruct isLast; cbn [negb andb]; by rewrite <- app_assoc.
    + rewrite (onData_refused chunk isLast c s Eb Ecan).
      unfold still_to_read. by rewrite Eb, Ecan.
  - unfold still_to_read, onData. by rewrite Eb, Eb.
Qed.

(** When a read has returned the end of the stream, the reads have
    returned everything the stream had to give. *)
Lemma reads_complete (acts : list body_action) :
  ∀ c, stream_wf c →
    ReadableStream.done ∈ (run_body acts c).1 →
    values_read (run_body acts c).1 = still_to_read c acts.
Proof.
  induction acts as [|[chunk isLast| |] acts IH]; intros c Hwf Hdone.
  - by apply elem_of_nil in Hdone.
  - cbn [run_body] in *. rewrite <- still_to_read_onData.
    by apply IH; [apply stream_wf_onData|].
  - cbn [run_body] in *. by rewrite (IH (onAborted c)).
  - pose proof (stream_wf_read_body c Hwf) as Hwf'.
    pose proof (reads_prefix acts (read_body c).2) as Hpre.
    specialize (IH (read_body c).2 Hwf').
    cbn [run_body] in *.
    destruct (request_body c) as [s|] eqn:Eb.
    + destruct (read_body_stream c s Eb) as [Hr Hb'].
      pose proof (read_step s) as Hstep.
      specialize (Hwf s Eb). unfold stream_ok in Hwf.
      unfold still_to_read in *. rewrite Eb. rewrite Hb' in IH, Hpre.
      destruct (read_body c) as [r c1]. cbn [fst snd] in *. subst r.
      destruct (run_body acts c1) as [rs c2]. cbn [fst] in *.
      cbn [delivered].
      destruct (ReadableStream.read s).1 as [x| | |] eqn:Er;
        cbn [values_read omap] in *.
      * destruct Hstep as [-> <-]. cbn [app].
        change (values_read (ReadableStream.value x :: rs))
          with (x :: values_read rs).
        f_equal. apply IH.
        apply elem_of_cons in Hdone as [?|?]; [done|done].
      * rewrite Hstep in Hpre.
        unfold ReadableStream.read in Er.
        unfold ReadableStream.can_close_or_enqueue in *.
        destruct (ReadableStream.st s) eqn:Est.
        -- by destruct (ReadableStream.queue s).
        -- destruct Hwf as [Eq _]. rewrite Eq in *.
           rewrite andb_false_r in *. cbn [app] in *.
           by apply prefix_nil_inv in Hpre.
        -- done.
      * rewrite Hstep in IH. apply IH.
        apply elem_of_cons in Hdone as [?|?]; [done|done].
      * rewrite Hstep in IH. apply IH.
        apply elem_of_cons in Hdone as [?|?]; [done|done].
    + unfold still_to_read, read_body in *. rewrite Eb in *.
      cbn [fst snd] in *. rewrite Eb in IH.
      destruct (run_body acts c) as [rs c2]. by apply IH.
Qed.

(** X20: when a read of the request body returns the end of the stream,
    the chunks read are exactly the chunks the engine delivered up to the
    one flagged as the last, in order: nothing is lost. *)
Theorem body_read_to_end (method : string) (acts : list body_action) :
  ReadableStream.done ∈ (run_body acts (open_connection method)).1 →
  values_read (run_body acts (open_connection method)).1 = delivered acts.
Proof.
  intros Hdone.
  rewrite (reads_complete acts _ (stream_wf_open method) Hdone).
  unfold still_to_read.
  destruct (request_body (open_connection method)) as [s|] eqn:Eb.
  - unfold open_connection in Eb. cbn [request_body] in Eb.
    destruct (_ || _); [done|]. by injection Eb as <-.
  - exfalso. clear -Hdone Eb.
    assert (Hnone : ∀ acts c, request_body c = None →
                      (run_body acts c).1 = []).
    { clear. induction acts as [|[chunk isLast| |] acts IH]; intros c Eb;
        cbn [run_body]; [done| | |].
      - apply IH. unfold onData. by rewrite Eb.
      - by apply IH.
      - unfold read_body. rewrite Eb. specialize (IH c Eb).
        destruct (run_body acts c). cbn [fst] in *. by subst. }
    rewrite (Hnone acts _ Eb) in Hdone. by apply elem_of_nil in Hdone.
Qed.

Lemma body_read_to_end_witness :
  ReadableStream.done
  ∈ (run_body [Data [x41] false; Read; Data [x42] true; Read; Read]
       (open_connection "POST")).1
  ∧ values_read
      (run_body [Data [x41] false; Read; Data [x42] true; Read; Read]
         (open_connection "POST")).1
    = [[x41]; [x42]].
Proof.
  assert (Hdone : ReadableStream.done
    ∈ (run_body [Data [x41] false; Read; Data [x42] true; Read; Read]
         (open_connection "POST")).1)
    by (vm_compute; do 2 apply list_elem_of_further; apply list_elem_of_here).
  split; [exact Hdone|].
  exact (body_read_to_end "POST"
           [Data [x41] false; Read; Data [x42] true; Read; Read] Hdone).
Defined.

(** ** The writer under either behaviour of the engine *)

Lemma stream_body_with_carries_out (when : abort_time)
    (rest : list Uint8Array) (failure : option string) :
  ∀ (k : nat) (lastChunk : option Uint8Array) (c : conn),
    stream_body_with carries_out when k rest failure lastChunk c
    = stream_body when k rest failure lastChunk c.
Proof.
  induction rest as [|chunk rest IH]; intros k lastChunk c.
  - cbn [stream_body_with stream_body cork_with].
    destruct failure; [done|]. by destruct lastChunk.
  - cbn [stream_body_with stream_body cork_with].
    destruct lastChunk; apply IH.
Qed.

Lemma cork_with_not_aborted (eng : engine) (cs : list res_call) (c : conn) :
  aborted c = false → cork_with eng cs c = (record (Cork cs) c, None).
Proof. intros Hab. destruct eng; cbn [cork_with]; by rewrite ?Hab. Qed.

(** As long as no abort comes, the engine makes no difference. *)
Lemma stream_body_with_no_abort (eng : engine) (rest : list Uint8Array)
    (failure : option string) :
  ∀ (k : nat) (lastChunk : option Uint8Array) (c : conn),
    aborted c = false →
    stream_body_with eng never k rest failure lastChunk c
    = stream_body never k rest failure lastChunk c.
Proof.
  induction rest as [|chunk rest IH]; intros k lastChunk c Hab.
  - cbn [stream_body_with stream_body await_pull].
    destruct failure; [done|].
    destruct lastChunk; [|done]. by apply cork_with_not_aborted.
  - cbn [stream_body_with stream_body await_pull].
    destruct lastChunk as [held|]; [|by apply IH].
    rewrite cork_with_not_aborted by done. by apply IH.
Qed.

Lemma finish_with_no_abort (eng : engine) (response : Response) (c : conn) :
  finish_with eng never response c = finish never response c.
Proof.
  unfold finish_with, finish. destruct (aborted c) eqn:Hab; [done|].
  destruct (body response); [|done].
  by apply stream_body_with_no_abort.
Qed.

(** C2 fails on the code: the loop of [finish] never reads [aborted].
    When the abort comes during the first pull of a body of two chunks,
    the loop still calls [res.cork] for [write(A)] afterwards.  If the
    engine carries calls on an aborted response out, both chunks are
    written after the abort; if such a call throws, the exception leaves
    the loop after that one call.  Under neither engine is the flag
    checked again or the rest of the stream drained. *)
Theorem loop_calls_res_after_abort (eng : engine) (code : N)
    (text : string) (h : Headers.t) (A B : Uint8Array) (method : string) :
  after_abort
    (timeline
       (finish_with eng (during_pull 0)
          {| status := code; statusText := text; headers := h;
             body := Some {| chunks := [A; B]; failure := None |} |}
          (open_connection method)).1)
  = match eng with
    | carries_out => [Cork [write A]; Cork [end_ (Some B)]]
    | throws_when_aborted _ => [Cork []]
    end.
Proof. by destruct eng. Qed.

(** X13: with no abort, every chunk of a body that ends after at least
    one chunk is handed to [res] once and in order, whatever the engine:
    all chunks but the last by [write], the last by [end], which completes
    the response. *)
Theorem body_written_in_order (eng : engine) (code : N) (text : string)
    (h : Headers.t) (init : list Uint8Array) (final : Uint8Array)
    (method : string) :
  filter is_body_call
    (res_calls
       (timeline
          (finish_with eng never
             {| status := code; statusText := text; headers := h;
                body := Some {| chunks := init ++ [final];
                                failure := None |} |}
             (open_connection method)).1))
  = map write init ++ [end_ (Some final)].
Proof.
  rewrite finish_with_no_abort.
  destruct (finish_head never
              {| status := code; statusText := text; headers := h;
                 body := Some {| chunks := init ++ [final];
                                 failure := None |} |} method)
    as (c & Hc & _ & ->).
  cbn [body chunks failure]. rewrite stream_body_ends, Hc.
  unfold head_calls. cbn [body headers with_held]. rewrite app_nil_r.
  rewrite filter_app, filter_cons_False by (simpl; tauto).
  rewrite header_calls_filter by done. cbn [app].
  rewrite filter_app, filter_writes.
  by rewrite filter_cons_True by done.
Qed.

Lemma cork_with_aborted (eng : engine) (cs : list res_call) (c : conn) :
  aborted (cork_with eng cs c).1 = aborted c.
Proof.
  destruct eng; cbn [cork_with]; [done|].
  destruct (aborted c) eqn:Hab; cbn [fst record aborted]; done.
Qed.

Lemma cork_with_throws (eng : engine) (cs : list res_call) (c : conn)
    (e : string) :
  (cork_with eng cs c).2 = Some e → aborted c = true.
Proof.
  destruct eng; cbn [cork_with]; [done|]. by destruct (aborted c).
Qed.

(** Once set, the flag is set when the loop is left, however it is left. *)
Lemma stream_body_with_aborted (eng : engine) (k : nat)
    (rest : list Uint8Array) (failure : option string) :
  ∀ (k0 : nat) (lastChunk : option Uint8Array) (c : conn),
    aborted c = true ∨ (k0 ≤ k ∧ k ≤ k0 + length rest)%nat →
    aborted
      (stream_body_with eng (during_pull k) k0 rest failure lastChunk c).1
    = true.
Proof.
  induction rest as [|chunk rest IH]; intros k0 lastChunk c Hk.
  - assert (Hab : aborted (await_pull (during_pull k) k0 c) = true).
    { cbn [await_pull]. destruct (decide (k = k0)) as [->|Hne]; [done|].
      destruct Hk as [Hab|[H1 H2]]; [done|]. cbn [length] in H2. lia. }
    cbn [stream_body_with]. destruct failure; [done|].
    destruct lastChunk; [|done]. by rewrite cork_with_aborted.
  - cbn [stream_body_with].
    set (c1 := await_pull (during_pull k) k0 c).
    assert (Hnext : aborted c1 = true
                    ∨ (S k0 ≤ k ∧ k ≤ S k0 + length rest)%nat).
    { subst c1. cbn [await_pull].
      destruct (decide (k = k0)) as [->|Hne]; [by left|].
      destruct Hk as [Hab|[H1 H2]]; [by left|]. right.
      cbn [length] in H2. lia. }
    destruct lastChunk as [held|]; [|by apply IH].
    pose proof (cork_with_aborted eng [write held] c1) as Hcork.
    pose proof (cork_with_throws eng [write held] c1) as Hthrow.
    destruct (cork_with eng [write held] c1) as [c2 [e|]];
      cbn [fst snd] in *.
    + rewrite Hcork. by apply (Hthrow e).
    + apply IH. destruct Hnext as [Hab|?]; [left; congruence|by right].
Qed.

(** When the stream throws, the loop is left by an exception. *)
Lemma stream_body_with_fails (eng : engine) (when : abort_time)
    (rest : list Uint8Array) (e : string) :
  ∀ (k : nat) (lastChunk : option Uint8Array) (c : conn),
    is_Some (stream_body_with eng when k rest (Some e) lastChunk c).2.
Proof.
  induction rest as [|chunk rest IH]; intros k lastChunk c.
  - by eexists.
  - cbn [stream_body_with]. destruct lastChunk as [held|]; [|apply IH].
    destruct (cork_with eng [write held] _) as [c2 [e'|]];
      [by eexists|apply IH].
Qed.

(** X21: when the abort comes while the body is streamed, [handleError]
    does nothing for that response, whatever the engine: if [finish] fails
    afterwards, because the body stream throws or because a call on the
    aborted response throws, the error is swallowed, with no call on [res]
    and nothing logged.  A body stream that throws does make [finish]
    fail. *)
Theorem error_after_abort_swallowed (eng : engine) (code : N)
    (text : string) (h : Headers.t) (yielded : list Uint8Array)
    (thrown : option string) (k : nat) (method : string) :
  (k ≤ length yielded)%nat →
  let response :=
    {| status := code; statusText := text; headers := h;
       body := Some {| chunks := yielded; failure := thrown |} |} in
  finish_or_handleError_with eng (during_pull k) response
    (open_connection method)
  = (finish_with eng (during_pull k) response (open_connection method)).1
  ∧ (is_Some thrown →
     is_Some
       (finish_with eng (during_pull k) response
          (open_connection method)).2).
Proof.
  intros Hk response. unfold finish_or_handleError_with, finish_with.
  cbn [aborted open_connection body response chunks failure].
  set (c := record _ _).
  pose proof (stream_body_with_aborted eng k yielded thrown 0 None c
                (or_intror (conj (Nat.le_0_l k) Hk))) as Hab.
  split.
  - destruct (stream_body_with eng (during_pull k) 0 yielded thrown None c)
      as [c' [e|]]; cbn [fst] in *; [|done].
    by apply handleError_aborted.
  - intros [e ->]. apply stream_body_with_fails.
Qed.

Lemma error_after_abort_swallowed_witness :
  (1 ≤ length [[x41]; [x42]; [x43]])%nat
  ∧ timeline
      (finish_or_handleError_with (throws_when_aborted "gone")
         (during_pull 1)
         {| status := 200; statusText := "OK"; headers := [];
            body := Some {| chunks := [[x41]; [x42]; [x43]];
                            failure := None |} |}
         (open_connection "GET"))
    = timeline
        (finish_with (throws_when_aborted "gone") (during_pull 1)
           {| status := 200; statusText := "OK"; headers := [];
              body := Some {| chunks := [[x41]; [x42]; [x43]];
                              failure := None |} |}
           (open_connection "GET")).1.
Proof.
  split; [repeat constructor|].
  exact (f_equal timeline
           (proj1 (error_after_abort_swallowed (throws_when_aborted "gone")
                     200 "OK" [] [[x41]; [x42]; [x43]] None 1 "GET"
                     (le_S _ _ (le_S _ _ (le_n 1)))))).
Defined.
